(** * go-udev netlink core: uevent wire parser, netlink connection, monitor loop

    A shallow embedding of [netlink/uevent.go] and [netlink/conn.go].

    - Go [[]byte] is [list ascii] (one [ascii] is one 8-bit byte); Go [string]
      is [string]; the conversions [string(b)] and [[]byte(s)] are
      [string_of_list_ascii] and [list_ascii_of_string].
    - Go [map[string]string] is [gmap string string]; a lookup [m[k]] of a
      missing key gives the zero value, the empty string.
    - Go [int] and [uint32] are [Z], with the 32-bit wrap-around written out.
    - A function returning [(e *UEvent, err error)] returns a pair of options
      ([None] is [nil]); a run-time panic is a separate outcome.
    - The kernel socket is explicit state threaded through the connection
      methods: the datagrams and errors pending on it.
    - [strings.ToLower], the native byte order and the page size come from
      the platform, a parameter of the functions that use them. *)

From Stdlib Require Import ZArith Lia Ascii String.
From stdpp Require Import base option list gmap strings fin_maps.

Local Open Scope Z_scope.

(** ** Bytes, strings and the Go run time *)

Abbreviation bytes := (list ascii).

Definition NUL : ascii := Ascii.zero.

(** [[]byte(s)] and [string(b)]. *)
Definition bytes_of (s : string) : bytes := list_ascii_of_string s.
Definition string_of (b : bytes) : string := string_of_list_ascii b.

(** [len(x)] as a Go [int]. *)
Definition len {A} (l : list A) : Z := Z.of_nat (length l).

(** What a run-time panic was raised for. *)
Inductive panic : Type :=
  | SliceBounds       (* slice bounds out of range *)
  | IndexOutOfRange   (* index out of range *)
  | NilDereference    (* nil pointer dereference *)
  | UnsafeRead.       (* unchecked pointer read past the end of the slice *)

(** The outcome of running a Go function: it returns, or it panics. *)
Inductive outcome (A : Type) : Type :=
  | Return (a : A)
  | Panic (p : panic).
Arguments Return {A} a.
Arguments Panic {A} p.

Definition bind {A B} (x : outcome A) (k : A -> outcome B) : outcome B :=
  match x with
  | Return a => k a
  | Panic p => Panic p
  end.

Notation "x <~ c ;; k" := (bind c (fun x => k))
  (at level 100, c at next level, right associativity).

(** The slice expression [s[lo:hi]]. Every use in this package has
    [hi <= len(s)], so the capacity never matters. *)
Definition slice {A} (s : list A) (lo hi : Z) : outcome (list A) :=
  if (0 <=? lo) && (lo <=? hi) && (hi <=? len s)
  then Return (take (Z.to_nat (hi - lo)) (drop (Z.to_nat lo) s))
  else Panic SliceBounds.

(** [s[lo:]] *)
Definition slice_from {A} (s : list A) (lo : Z) : outcome (list A) :=
  slice s lo (len s).

(** [s[i]] *)
Definition index {A} (s : list A) (i : Z) : outcome A :=
  if 0 <=? i then
    match s !! Z.to_nat i with
    | Some x => Return x
    | None => Panic IndexOutOfRange
    end
  else Panic IndexOutOfRange.

(** [bytes.Split(s, sep)] for a one-byte separator, the only way the package
    calls it. [split_first] gives the first field and the others; the result
    of [Split] is never empty ([bytes.Split] of an empty slice is one empty
    field). *)
Fixpoint split_first (s : bytes) (sep : ascii) : bytes * list bytes :=
  match s with
  | [] => ([], [])
  | c :: s' =>
      let '(f, fs) := split_first s' sep in
      if decide (c = sep) then ([], f :: fs) else (c :: f, fs)
  end.

Definition Split (s : bytes) (sep : ascii) : list bytes :=
  let '(f, fs) := split_first s sep in f :: fs.

(** [bytes.Equal] *)
Definition bytes_Equal (a b : bytes) : bool := bool_decide (a = b).

(** A byte as an unsigned number. *)
Definition byte_val (c : ascii) : Z := Z.of_N (N_of_ascii c).

(** [binary.BigEndian.Uint32(b)]: panics unless [len(b) >= 4]. *)
Definition BigEndian_Uint32 (b : bytes) : outcome Z :=
  b3 <~ index b 3 ;;
  b2 <~ index b 2 ;;
  b1 <~ index b 1 ;;
  b0 <~ index b 0 ;;
  Return (Z.lor (Z.lor (Z.lor (byte_val b3) (Z.shiftl (byte_val b2) 8))
                       (Z.shiftl (byte_val b1) 16))
                (Z.shiftl (byte_val b0) 24)).

(** The byte order of the platform. *)
Inductive ByteOrder : Type := LittleEndian | BigEndian.

(** What the package takes from the Go run time and the platform:
    [strings.ToLower], the native byte order and [os.Getpagesize()]. *)
Record Platform : Type := {
  ToLower : string -> string;
  nativeOrder : ByteOrder;
  Getpagesize : nat
}.

(** ASCII lower-casing, which is what [strings.ToLower] does on a string
    whose bytes are all below 0x80. *)
Definition lower_ascii (c : ascii) : ascii :=
  let n := N_of_ascii c in
  if ((65 <=? n) && (n <=? 90))%N then ascii_of_N (n + 32) else c.

Fixpoint lower_string (s : string) : string :=
  match s with
  | EmptyString => EmptyString
  | String c s' => String (lower_ascii c) (lower_string s')
  end.

Fixpoint is_ascii (s : string) : bool :=
  match s with
  | EmptyString => true
  | String c s' => (N_of_ascii c <? 128)%N && is_ascii s'
  end.

Definition platform_ok (P : Platform) : Prop :=
  (forall s, is_ascii s = true -> ToLower P s = lower_string s) /\
  (0 < Getpagesize P)%nat.

(** [uint32(x)] of a non-negative [int]. *)
Definition uint32 (x : Z) : Z := x mod 2 ^ 32.

(** ** Errors *)

Inductive error : Type :=
  | ErrUnknownAction (raw : string)  (* unknow kobject action (got: %s) *)
  | ErrMagicMismatch   (* cannot parse libudev event: magic number mismatch *)
  | ErrInvalidOffset   (* cannot parse libudev event: invalid data offset *)
  | ErrDataMissing     (* cannot parse libudev event: data missing *)
  | ErrInvalidEnvData  (* cannot parse libudev event: invalid env data *)
  | ErrWrongFormat     (* Wrong uevent format *)
  | ErrWrongHeader     (* Wrong uevent header *)
  | ErrWrongEnv        (* Wrong uevent env *)
  | ErrWrongAction (got wanted : string)
  | ErrWrongKObj (got wanted : string)
  | ErrWrongEnvLength (got wanted : Z)
  | ErrEnvNotFound (k v : string)
  | ErrEmptyBuffer     (* empty buffer *)
  | Errno (code : nat) (* an error of a system call *)
  | ErrUnableToRead (e : error)   (* Unable to read uevent, err: %w *)
  | ErrUnableToParse (e : error)  (* Unable to parse uevent, err: %w *)
  | ErrUnableToCheck (e : error)  (* Unable to check available uevent, err: %w *)
  | ErrWrongMatcher (e : error).  (* Wrong matcher, err: %w *)

(** ** uevent.go *)

Abbreviation KObjAction := string (only parsing).

Definition ADD : KObjAction := "add".
Definition REMOVE : KObjAction := "remove".
Definition CHANGE : KObjAction := "change".
Definition MOVE : KObjAction := "move".
Definition ONLINE : KObjAction := "online".
Definition OFFLINE : KObjAction := "offline".
Definition BIND : KObjAction := "bind".
Definition UNBIND : KObjAction := "unbind".

Definition actions : list KObjAction :=
  [ADD; REMOVE; CHANGE; MOVE; ONLINE; OFFLINE; BIND; UNBIND].

Definition libudevMagic : Z := 0xfeedcafe.

(** The result [a] is the converted string even when [err] is set. *)
Definition ParseKObjAction (raw : string) : KObjAction * option error :=
  let a : KObjAction := raw in
  if bool_decide (a ∈ actions) then (a, None)
  else (a, Some (ErrUnknownAction raw)).

Record UEvent : Type := mkUEvent {
  Action : KObjAction;
  KObj : string;
  Env : gmap string string
}.

(** [m[k]] on a Go map: the empty string when the key is absent. *)
Definition map_get (m : gmap string string) (k : string) : string :=
  default "" (m !! k).

(** The loop [for _, envs := range fields { env := bytes.Split(envs, "=");
    if len(env) != 2 { err = ...; return }; m[string(env[0])] = string(env[1]) }]
    that both parsers run. It gives the map as it is when the loop ends and
    whether the loop ended in the error branch. *)
Fixpoint range_env (fields : list bytes) (m : gmap string string)
  : gmap string string * bool :=
  match fields with
  | [] => (m, true)
  | envs :: rest =>
      match Split envs "=" with
      | [k; v] => range_env rest (<[string_of k := string_of v]> m)
      | _ => (m, false)
      end
  end.

Definition NUL_s : string := String NUL EmptyString.

(** [UEvent.String]: [kvs] is the order in which [range e.Env] visits the
    map, which Go leaves open; see [range_of]. *)
Definition String_with (kvs : list (string * string)) (e : UEvent) : string :=
  foldl (fun rv kv => rv +:+ (kv.1 +:+ "=" +:+ kv.2 +:+ NUL_s))
        (Action e +:+ "@" +:+ KObj e +:+ NUL_s) kvs.

(** The orders in which a [range] over the map may visit it. *)
Definition range_of (m : gmap string string) (kvs : list (string * string)) : Prop :=
  kvs ≡ₚ map_to_list m.

(** [UEvent.Bytes] *)
Definition Bytes_with (kvs : list (string * string)) (e : UEvent) : bytes :=
  bytes_of (String_with kvs e).

(** [UEvent.Equal]: [kvs] is the order of the outer [range e.Env]. The inner
    loop over [e2.Env] only looks for one pair, so its order does not show. *)
Definition Equal_with (kvs : list (string * string)) (e e2 : UEvent)
  : bool * option error :=
  if bool_decide (Action e ≠ Action e2)
  then (false, Some (ErrWrongAction (Action e) (Action e2)))
  else if bool_decide (KObj e ≠ KObj e2)
  then (false, Some (ErrWrongKObj (KObj e) (KObj e2)))
  else if bool_decide (size (Env e) ≠ size (Env e2))
  then (false, Some (ErrWrongEnvLength (Z.of_nat (size (Env e)))
                                      (Z.of_nat (size (Env e2)))))
  else
    match
      find (fun kv => negb (existsb (fun ie => bool_decide (ie.1 = kv.1 ∧ kv.2 = ie.2))
                                    (map_to_list (Env e2)))) kvs
    with
    | Some kv => (false, Some (ErrEnvNotFound kv.1 kv.2))
    | None => (true, None)
    end.

(** The [uint32] read through [unsafe.Pointer(&raw[i])]: the four bytes at
    [i], in the byte order of the platform. [&raw[i]] is bounds-checked, the
    read of the four bytes is not. *)
Definition native_Uint32_at (order : ByteOrder) (raw : bytes) (i : Z) : outcome Z :=
  _ <~ index raw i ;;
  if i + 4 <=? len raw then
    let b k := byte_val (nth (Z.to_nat (i + k)) raw NUL) in
    Return
      match order with
      | LittleEndian =>
          Z.lor (Z.lor (Z.lor (b 0) (Z.shiftl (b 1) 8)) (Z.shiftl (b 2) 16))
                (Z.shiftl (b 3) 24)
      | BigEndian =>
          Z.lor (Z.lor (Z.lor (b 3) (Z.shiftl (b 2) 8)) (Z.shiftl (b 1) 16))
                (Z.shiftl (b 0) 24)
      end
  else Panic UnsafeRead.

Definition parseUdevEvent (P : Platform) (raw : bytes)
  : outcome (option UEvent * option error) :=
  raw8 <~ slice_from raw 8 ;;
  magic <~ BigEndian_Uint32 raw8 ;;
  if bool_decide (magic ≠ libudevMagic) then Return (None, Some ErrMagicMismatch)
  else
    payloadoff <~ native_Uint32_at (nativeOrder P) raw 16 ;;
    if payloadoff >=? uint32 (len raw) then Return (None, Some ErrInvalidOffset)
    else
      payload <~ slice_from raw payloadoff ;;
      let fields := Split payload NUL in
      if len fields =? 0 then Return (None, Some ErrDataMissing)
      else
        envs <~ slice fields 0 (len fields - 1) ;;
        let '(envdata, ok) := range_env envs ∅ in
        if negb ok then Return (None, Some ErrInvalidEnvData)
        else
          let '(action, err) :=
            ParseKObjAction (ToLower P (map_get envdata "ACTION")) in
          match err with
          | Some er => Return (None, Some er)
          | None =>
              let kobj := map_get envdata "DEVPATH" in
              Return (Some (mkUEvent action kobj envdata), None)
          end.

Definition libudev_prefix : bytes := bytes_of "libudev" ++ [NUL].

(** The condition [len(raw) > 40 && bytes.Equal(raw[:8], "libudev\x00")];
    [&&] does not evaluate [raw[:8]] on a short buffer. *)
Definition isUdevFormat (raw : bytes) : outcome bool :=
  if len raw >? 40 then
    raw8 <~ slice raw 0 8 ;;
    Return (bytes_Equal raw8 libudev_prefix)
  else Return false.

(** Lines 154-186 of [ParseUEvent], the kernel (native) format. When the
    loop over the environment fields fails, the event built so far is
    returned next to the error. *)
Definition ParseUEvent_native (raw : bytes)
  : outcome (option UEvent * option error) :=
  let fields := Split raw NUL in
  if len fields =? 0 then Return (None, Some ErrWrongFormat)
  else
    field0 <~ index fields 0 ;;
    match Split field0 "@" with
    | [h0; h1] =>
        let '(action, err) := ParseKObjAction (string_of h0) in
        match err with
        | Some er => Return (None, Some er)
        | None =>
            envs <~ slice fields 1 (len fields - 1) ;;
            let '(env, ok) := range_env envs ∅ in
            let e := mkUEvent action (string_of h1) env in
            if ok then Return (Some e, None)
            else Return (Some e, Some ErrWrongEnv)
        end
    | _ => Return (None, Some ErrWrongHeader)
    end.

Definition ParseUEvent (P : Platform) (raw : bytes)
  : outcome (option UEvent * option error) :=
  udev <~ isUdevFormat raw ;;
  if udev : bool then parseUdevEvent P raw else ParseUEvent_native raw.

(** ** conn.go *)

(** The kernel side of the netlink socket: the datagrams and error
    conditions pending on it, oldest first. *)
Inductive pending : Type :=
  | Datagram (d : bytes)
  | SockErr (code : nat).

Definition Socket := list pending.

(** The result of [syscall.Recvfrom(fd, buf, flags)]: the call blocks (nothing
    is pending, and nothing arrives), or returns [n] and [err] with the
    buffer and the socket as it leaves them. *)
Inductive recv : Type :=
  | RecvBlocks
  | Recv (n : Z) (buf : bytes) (err : option error) (s : Socket).

(** [recvfrom(2)] on a datagram socket: one whole datagram per call, cut to
    the size of the buffer; [MSG_PEEK] leaves it pending; a pending error is
    reported once. *)
Definition Recvfrom (s : Socket) (buf : bytes) (peek : bool) : recv :=
  match s with
  | [] => RecvBlocks
  | SockErr code :: s' => Recv (-1) buf (Some (Errno code)) s'
  | Datagram d :: s' =>
      let n := (length d `min` length buf)%nat in
      Recv (Z.of_nat n) (take n d ++ drop n buf) None (if peek then s else s')
  end.

(** [make([]byte, n)] *)
Definition make (n : nat) : bytes := replicate n NUL.

(** The outcome of a connection method: it returns with the socket as it
    left it, blocks for ever, panics, or the model ran out of [fuel]. *)
Inductive io (A : Type) : Type :=
  | Done (a : A) (s : Socket)
  | Blocks
  | Crashes (p : panic)
  | OutOfFuel.
Arguments Done {A} a s.
Arguments Blocks {A}.
Arguments Crashes {A} p.
Arguments OutOfFuel {A}.

(** The [for] loop of [msgPeek]; [fuel] bounds the number of turns. *)
Fixpoint msgPeek_loop (P : Platform) (fuel : nat) (s : Socket) (buf : bytes)
  : io (Z * bytes * option error) :=
  match fuel with
  | O => OutOfFuel
  | S fuel' =>
      match Recvfrom s buf true with
      | RecvBlocks => Blocks
      | Recv n buf' (Some err) s' => Done (n, buf', Some err) s'
      | Recv n buf' None s' =>
          if n <? len buf' then Done (n, buf', None) s'
          else msgPeek_loop P fuel' s' (make (length buf' + Getpagesize P))
      end
  end.

Definition msgPeek (P : Platform) (fuel : nat) (s : Socket)
  : io (Z * bytes * option error) :=
  msgPeek_loop P fuel s (make (Getpagesize P)).

(** [msgRead(buf *[]byte)]: [None] is the nil pointer. The first component
    of the result is [*buf] after the call. *)
Definition msgRead (s : Socket) (buf : option bytes)
  : io (option bytes * option error) :=
  match buf with
  | None => Done (None, Some ErrEmptyBuffer) s
  | Some b =>
      match Recvfrom s b false with
      | RecvBlocks => Blocks
      | Recv n b' (Some err) s' => Done (Some b', Some err) s'
      | Recv n b' None s' =>
          match slice b' 0 n with
          | Return b'' => Done (Some b'', None) s'
          | Panic p => Crashes p
          end
      end
  end.

(** [ReadMsg]: the message is [nil] ([[]]) when the size probe fails, and
    [*buf] otherwise. *)
Definition ReadMsg (P : Platform) (fuel : nat) (s : Socket)
  : io (bytes * option error) :=
  match msgPeek P fuel s with
  | Done (_, _, Some err) s' => Done ([], Some err) s'
  | Done (_, buf, None) s' =>
      match msgRead s' (Some buf) with
      | Done (buf', err) s'' => Done (default [] buf', err) s''
      | Blocks => Blocks
      | Crashes p => Crashes p
      | OutOfFuel => OutOfFuel
      end
  | Blocks => Blocks
  | Crashes p => Crashes p
  | OutOfFuel => OutOfFuel
  end.

Definition ReadUEvent (P : Platform) (fuel : nat) (s : Socket)
  : io (option UEvent * option error) :=
  match ReadMsg P fuel s with
  | Done (_, Some err) s' => Done (None, Some err) s'
  | Done (msg, None) s' =>
      match ParseUEvent P msg with
      | Return r => Done r s'
      | Panic p => Crashes p
      end
  | Blocks => Blocks
  | Crashes p => Crashes p
  | OutOfFuel => OutOfFuel
  end.

(** [UEventConn], with the embedded [NetlinkConn] flattened: the descriptor
    (the socket behind it is the [Socket] threaded through the methods) and
    the option that stops the monitor after that many matched events. *)
Record UEventConn : Type := mkUEventConn {
  Fd : Z;
  MatchedUEventLimit : Z
}.

(** The [Matcher] interface. *)
Record Matcher : Type := {
  Compile : option error;
  Evaluate : UEvent -> bool
}.

(** The state of the worker goroutine of [Monitor]: the socket, the
    one-place channel [bufToRead] ([None] when it is empty), the counter,
    and what has been sent on [queue] and on [errs], oldest first. The two
    sends are taken to complete: the consumer keeps receiving. *)
Record Worker : Type := mkWorker {
  sock : Socket;
  bufToRead : option (option bytes);
  count : Z;
  queue : list UEvent;
  errs : list error
}.

(** One turn of the [for { select { ... } }] loop. *)
Inductive turn : Type :=
  | Continue (w : Worker)   (* the loop goes on *)
  | Break (w : Worker)      (* [break loop]: the worker ends *)
  | Waits (w : Worker)      (* blocked in a system call for ever *)
  | Crashed (p : panic)
  | NoFuel.

(** The [case buf := <-bufToRead] branch. *)
Definition on_buf (P : Platform) (c : UEventConn) (matcher : option Matcher)
    (buf : option bytes) (w : Worker) : turn :=
  match msgRead (sock w) buf with
  | Done (_, Some err) s' =>
      Break (mkWorker s' None (count w) (queue w)
                      (errs w ++ [ErrUnableToRead err]))
  | Done (buf', None) s' =>
      match ParseUEvent P (default [] buf') with
      | Panic p => Crashed p
      | Return (_, Some err) =>
          Continue (mkWorker s' None (count w) (queue w)
                             (errs w ++ [ErrUnableToParse err]))
      | Return (None, None) => Crashed NilDereference
      | Return (Some uevent, None) =>
          if match matcher with
             | Some m => negb (Evaluate m uevent)
             | None => false
             end
          then Continue (mkWorker s' None (count w) (queue w) (errs w))
          else
            let w' := mkWorker s' None (count w + 1) (queue w ++ [uevent]) (errs w) in
            if (MatchedUEventLimit c >? 0) && (count w + 1 >=? MatchedUEventLimit c)
            then Break w'
            else Continue w'
      end
  | Blocks => Waits w
  | Crashes p => Crashed p
  | OutOfFuel => NoFuel
  end.

(** The [default] branch. *)
Definition on_default (P : Platform) (fuel : nat) (w : Worker) : turn :=
  match msgPeek P fuel (sock w) with
  | Done (_, _, Some err) s' =>
      Break (mkWorker s' (bufToRead w) (count w) (queue w)
                      (errs w ++ [ErrUnableToCheck err]))
  | Done (_, buf, None) s' =>
      Continue (mkWorker s' (Some (Some buf)) (count w) (queue w) (errs w))
  | Blocks => Waits w
  | Crashes p => Crashed p
  | OutOfFuel => NoFuel
  end.

(** [select]: [quit_ready] says whether a receive from [quit] can proceed
    in this turn, [coin] is the choice [select] makes when both [quit] and
    [bufToRead] are ready; [default] runs only when neither is. *)
Definition loop_turn (P : Platform) (c : UEventConn) (matcher : option Matcher)
    (fuel : nat) (quit_ready coin : bool) (w : Worker) : turn :=
  match bufToRead w with
  | Some buf =>
      if quit_ready && coin then Break w
      else on_buf P c matcher buf w
  | None =>
      if quit_ready then Break w
      else on_default P fuel w
  end.

(** The worker: [turns] bounds the number of turns of the loop, [quit] gives
    [quit_ready] and [coin] for the turns to come; when it is used up the
    stop signal never comes. *)
Fixpoint worker (P : Platform) (c : UEventConn) (matcher : option Matcher)
    (fuel turns : nat) (quit : list (bool * bool)) (w : Worker) : turn :=
  match turns with
  | O => NoFuel
  | S turns' =>
      let '(quit_ready, coin) := default (false, false) (head quit) in
      match loop_turn P c matcher fuel quit_ready coin w with
      | Continue w' => worker P c matcher fuel turns' (tail quit) w'
      | t => t
      end
  end.

(** [Monitor] up to the start of the worker: a matcher that does not compile
    puts one error on [errs] and no worker is started ([None]). *)
Definition Monitor_entry (matcher : option Matcher) (s : Socket)
  : option Worker * list error :=
  match matcher with
  | Some m =>
      match Compile m with
      | Some err => (None, [ErrWrongMatcher err])
      | None => (Some (mkWorker s None 0 [] []), [])
      end
  | None => (Some (mkWorker s None 0 [] []), [])
  end.

(** ** conn.go: opening and closing the socket *)

Module Sys.

(** [Mode] is an [int]; the two modes are the multicast groups. *)
Abbreviation Mode := Z (only parsing).
Definition KernelEvent : Mode := 1.
Definition UdevEvent : Mode := 2.

Definition AF_NETLINK : Z := 16.

(** [syscall.SockaddrNetlink], without its padding. *)
Record SockaddrNetlink : Type := mkSockaddrNetlink {
  Family : Z;
  Pid : Z;
  Groups : Z
}.

Record NetlinkConn : Type := mkNetlinkConn {
  Fd : Z;
  Addr : SockaddrNetlink
}.

(** What the kernel answers to the two calls that can fail for reasons
    outside the program: [socket(2)] gives a new descriptor or an error
    number, [bind(2)] succeeds or gives an error number. *)
Record answers : Type := mkAnswers {
  socket_answer : Z + nat;
  bind_answer : option nat
}.

(** The system calls on the table of open descriptors. A failed call
    returns -1 for the descriptor; [close(2)] of a descriptor that is not
    open is the error EBADF and closes nothing. *)
Definition EBADF : nat := 9.

Definition sys_Socket (open : gset Z) (a : Z + nat) : Z * option error * gset Z :=
  match a with
  | inl fd => (fd, None, {[fd]} ∪ open)
  | inr code => (-1, Some (Errno code), open)
  end.

Definition sys_Bind (a : option nat) : option error :=
  match a with
  | None => None
  | Some code => Some (Errno code)
  end.

Definition sys_Close (open : gset Z) (fd : Z) : option error * gset Z :=
  if decide (fd ∈ open) then (None, open ∖ {[fd]})
  else (Some (Errno EBADF), open).

(** [Connect]: the connection as the call leaves it, the error, and the
    table of open descriptors. *)
Definition Connect (c : NetlinkConn) (mode : Mode) (a : answers) (open : gset Z)
  : NetlinkConn * option error * gset Z :=
  let '(fd, err, open1) := sys_Socket open (socket_answer a) in
  match err with
  | Some e => (mkNetlinkConn fd (Addr c), Some e, open1)
  | None =>
      let addr := mkSockaddrNetlink AF_NETLINK 0 (uint32 mode) in
      match sys_Bind (bind_answer a) with
      | Some e =>
          let '(_, open2) := sys_Close open1 fd in
          (mkNetlinkConn fd addr, Some e, open2)
      | None => (mkNetlinkConn fd addr, None, open1)
      end
  end.

Definition Close (c : NetlinkConn) (open : gset Z) : option error * gset Z :=
  sys_Close open (Fd c).

End Sys.

(** ** The wire formats in the words of the specification

    These follow the text of the specification, not the code; the theorems
    below compare the code with them. *)

(** The [n] bytes of [raw] from position [i]. *)
Definition spec_bytes_at (raw : bytes) (i n : nat) : bytes := take n (drop i raw).

(** Bytes read as an unsigned number, most significant byte first. *)
Definition spec_be (bs : bytes) : Z :=
  foldl (fun acc b => acc * 256 + byte_val b) 0 bs.

(** Bytes read as an unsigned number in the byte order of the platform. *)
Definition spec_native (order : ByteOrder) (bs : bytes) : Z :=
  match order with
  | BigEndian => spec_be bs
  | LittleEndian => spec_be (reverse bs)
  end.

(** The fields [f1 ... fn] written one after the other, each followed by a
    NUL byte. *)
Definition spec_fields (fs : list bytes) : bytes :=
  concat (map (fun f => f ++ [NUL]) fs).

(** [key=value] *)
Definition spec_pair (kv : bytes * bytes) : bytes := kv.1 ++ "="%char :: kv.2.

(** The map that a list of pairs populates, later pairs replacing earlier
    ones with the same key. *)
Definition spec_env (kvs : list (bytes * bytes)) : gmap string string :=
  foldl (fun m kv => <[string_of kv.1 := string_of kv.2]> m) ∅ kvs.

(** An event whose encoding is a native-format buffer: a valid action, no
    [@] or NUL in the kobject path, no [=] or NUL in a key or a value. *)
Definition spec_native_event (e : UEvent) : Prop :=
  (Action e ∈ actions) ∧
  (NUL ∉ bytes_of (KObj e)) ∧ ("@"%char ∉ bytes_of (KObj e)) ∧
  (forall k v, Env e !! k = Some v ->
     (NUL ∉ bytes_of k) ∧ ("="%char ∉ bytes_of k) ∧
     (NUL ∉ bytes_of v) ∧ ("="%char ∉ bytes_of v)).

(** The same in terms of the buffer: the NUL-separated fields of the
    encoding of [e], written with its pairs in the order [kvs], are the
    header of [e], its pairs and the empty trailing field; the header splits
    on [@] into the action, one of the eight, and the kobject path, and each
    pair splits on [=] into its key and its value. *)
Definition spec_encodes_native (kvs : list (string * string)) (e : UEvent) : Prop :=
  (Action e ∈ actions) ∧
  Split (Bytes_with kvs e) NUL
    = (bytes_of (Action e) ++ "@"%char :: bytes_of (KObj e))
      :: map (fun kv : string * string => spec_pair (bytes_of kv.1, bytes_of kv.2)) kvs
      ++ [[]] ∧
  Split (bytes_of (Action e) ++ "@"%char :: bytes_of (KObj e)) "@"
    = [bytes_of (Action e); bytes_of (KObj e)] ∧
  Forall (fun kv : string * string =>
            Split (spec_pair (bytes_of kv.1, bytes_of kv.2)) "="
            = [bytes_of kv.1; bytes_of kv.2]) kvs.

(** What "exactly two parts" means for a field and a separator. *)
Definition two_parts (sep : ascii) (f : bytes) : Prop :=
  length (Split f sep) = 2%nat.

(** Whether the matcher, if there is one, lets the event through. *)
Definition accepted (matcher : option Matcher) (e : UEvent) : bool :=
  match matcher with
  | Some m => Evaluate m e
  | None => true
  end.

(** What the worker sends on [queue] and on [errs] for one datagram. *)
Definition delivered (P : Platform) (matcher : option Matcher) (d : bytes) : list UEvent :=
  match ParseUEvent P d with
  | Return (Some e, None) => if accepted matcher e then [e] else []
  | _ => []
  end.

Definition reported (P : Platform) (d : bytes) : list error :=
  match ParseUEvent P d with
  | Return (_, Some err) => [ErrUnableToParse err]
  | _ => []
  end.

(** ** Data for the examples *)

(** A platform for the examples: little-endian, 4096-byte pages, and a
    [ToLower] that is the one of Go on ASCII strings. *)
Definition linux_amd64 : Platform :=
  {| ToLower := lower_string; nativeOrder := LittleEndian; Getpagesize := 4096 |}.

Definition put_be32 (x : Z) : bytes :=
  map (fun sh => ascii_of_N (Z.to_N (Z.land (Z.shiftr x sh) 255))) [24; 16; 8; 0].

Definition put_native32 (order : ByteOrder) (x : Z) : bytes :=
  match order with
  | BigEndian => put_be32 x
  | LittleEndian => reverse (put_be32 x)
  end.

(** An enriched buffer with a 24-byte header: prefix, magic, four unused
    bytes, payload offset, four unused bytes; then the payload. *)
Definition udev_buffer (order : ByteOrder) (magic off : Z) (payload : bytes) : bytes :=
  libudev_prefix ++ put_be32 magic ++ make 4 ++ put_native32 order off
    ++ make 4 ++ payload.

(** "add@/devices/foo\0DEVPATH=/devices/foo\0" *)
Definition scenario1 : bytes :=
  spec_fields [bytes_of "add@/devices/foo"; bytes_of "DEVPATH=/devices/foo"].

(** "ACTION=change\0DEVPATH=/devices/bar\0" behind a header with the magic
    number and offset 24. *)
Definition scenario2 (order : ByteOrder) : bytes :=
  udev_buffer order libudevMagic 24
    (spec_fields [bytes_of "ACTION=change"; bytes_of "DEVPATH=/devices/bar"]).

(** A native buffer that does not end in NUL: "add@/a\0garbage". *)
Definition trailing_garbage : bytes :=
  bytes_of "add@/a" ++ [NUL] ++ bytes_of "garbage".

(** A native buffer without any NUL byte. *)
Definition header_only : bytes := bytes_of "add@/devices/foo".

(** The event of scenario 1. *)
Definition event1 : UEvent :=
  mkUEvent ADD "/devices/foo" {["DEVPATH" := "/devices/foo"]}.

(** Enriched buffers with a wrong magic number, and with a payload offset
    past the end of the buffer. *)
Definition bad_magic : bytes :=
  udev_buffer LittleEndian 0xdeadbeef 24
    (spec_fields [bytes_of "ACTION=change"; bytes_of "DEVPATH=/devices/bar"]).

Definition bad_offset : bytes :=
  udev_buffer LittleEndian libudevMagic 1000
    (spec_fields [bytes_of "ACTION=change"; bytes_of "DEVPATH=/devices/bar"]).

(** A pending datagram of two pages. *)
Definition two_pages : Socket := [Datagram (make (2 * 4096))].

(** "remove@/devices/foo\0" and its event, and a datagram that is no uevent. *)
Definition scenario_remove : bytes := spec_fields [bytes_of "remove@/devices/foo"].
Definition event_remove : UEvent := mkUEvent REMOVE "/devices/foo" ∅.
Definition malformed : bytes := bytes_of "garbage".

(** * Properties *)

(** ** Slices and indices *)

Lemma len_nonneg {A} (l : list A) : 0 <= len l.
Proof. unfold len. lia. Qed.

Lemma slice_ok {A} (s : list A) (lo hi : Z) :
  0 <= lo -> lo <= hi -> hi <= len s ->
  slice s lo hi = Return (take (Z.to_nat (hi - lo)) (drop (Z.to_nat lo) s)).
Proof.
  intros H1 H2 H3. unfold slice.
  destruct (0 <=? lo) eqn:E1; [|lia].
  destruct (lo <=? hi) eqn:E2; [|lia].
  destruct (hi <=? len s) eqn:E3; [|lia]. reflexivity.
Qed.

Lemma slice_panics {A} (s : list A) (lo hi : Z) :
  hi < lo -> slice s lo hi = Panic SliceBounds.
Proof.
  intros H. unfold slice.
  destruct (0 <=? lo); simpl; [|reflexivity].
  destruct (lo <=? hi) eqn:E; [lia|reflexivity].
Qed.

Lemma slice_from_ok {A} (s : list A) (lo : Z) :
  0 <= lo -> lo <= len s ->
  slice_from s lo = Return (drop (Z.to_nat lo) s).
Proof.
  intros H1 H2. unfold slice_from. rewrite slice_ok by lia.
  f_equal. apply take_ge. rewrite length_drop. unfold len in *. lia.
Qed.

Lemma index_ok {A} (s : list A) (i : nat) (x : A) :
  s !! i = Some x -> index s (Z.of_nat i) = Return x.
Proof.
  intros H. unfold index.
  destruct (0 <=? Z.of_nat i) eqn:E. 2: { apply Z.leb_gt in E. lia. }
  rewrite Nat2Z.id, H. reflexivity.
Qed.

Lemma nth_lookup_Some {A} (s : list A) (i : nat) (d x : A) :
  s !! i = Some x -> nth i s d = x.
Proof.
  revert i. induction s as [|a s IH]; intros [|i] H; simpl in *; try discriminate.
  - congruence.
  - apply IH, H.
Qed.

(** ** [bytes.Split] *)

Section Split.
Variable sep : ascii.

Lemma Split_cons_sep (s : bytes) : Split (sep :: s) sep = [] :: Split s sep.
Proof.
  unfold Split. simpl. destruct (split_first s sep) as [f fs].
  destruct (decide (sep = sep)); [reflexivity|congruence].
Qed.

Lemma Split_cons_other (c : ascii) (s : bytes) :
  c <> sep ->
  exists f fs, Split s sep = f :: fs /\ Split (c :: s) sep = (c :: f) :: fs.
Proof.
  intros Hc. unfold Split. simpl. destruct (split_first s sep) as [f fs].
  destruct (decide (c = sep)); [congruence|]. eauto.
Qed.

Lemma Split_not_nil (s : bytes) : exists f fs, Split s sep = f :: fs.
Proof. unfold Split. destruct (split_first s sep) as [f fs]. eauto. Qed.

Lemma Split_app_sep (f rest : bytes) :
  sep ∉ f -> Split (f ++ sep :: rest) sep = f :: Split rest sep.
Proof.
  induction f as [|c f IH]; intros Hf; simpl.
  - apply Split_cons_sep.
  - apply not_elem_of_cons in Hf as [Hc Hf].
    destruct (Split_cons_other c (f ++ sep :: rest)) as (g & gs & E1 & E2);
      [congruence|].
    rewrite E2. rewrite IH in E1 by assumption. congruence.
Qed.

Lemma Split_no_sep (f : bytes) : sep ∉ f -> Split f sep = [f].
Proof.
  induction f as [|c f IH]; intros Hf; [reflexivity|].
  apply not_elem_of_cons in Hf as [Hc Hf].
  destruct (Split_cons_other c f) as (g & gs & E1 & E2); [congruence|].
  rewrite E2. rewrite IH in E1 by assumption. congruence.
Qed.

(** The fields hold no separator, and joining them with the separator
    gives the input back. *)
Lemma Split_fields (s : bytes) : Forall (fun f => sep ∉ f) (Split s sep).
Proof.
  induction s as [|c s IH].
  - repeat constructor. apply not_elem_of_nil.
  - destruct (decide (c = sep)) as [->|Hc].
    + rewrite Split_cons_sep. constructor; [apply not_elem_of_nil|assumption].
    + destruct (Split_cons_other c s Hc) as (g & gs & E1 & E2).
      rewrite E2. rewrite E1 in IH. inversion IH; subst.
      constructor; [|assumption].
      apply not_elem_of_cons. split; [congruence|assumption].
Qed.

Lemma Split_join (s f : bytes) (fs : list bytes) :
  Split s sep = f :: fs -> s = f ++ concat (map (cons sep) fs).
Proof.
  revert f fs. induction s as [|c s IH]; intros f fs E.
  - inversion E. reflexivity.
  - destruct (decide (c = sep)) as [->|Hc].
    + rewrite Split_cons_sep in E. inversion E; subst. simpl.
      destruct (Split_not_nil s) as (g & gs & Eg).
      rewrite Eg. simpl. f_equal. apply IH, Eg.
    + destruct (Split_cons_other c s Hc) as (g & gs & E1 & E2).
      rewrite E2 in E. inversion E; subst. simpl. f_equal. apply IH, E1.
Qed.

Lemma Split_one (s f : bytes) : Split s sep = [f] <-> s = f /\ sep ∉ f.
Proof.
  split.
  - intros E. split.
    + apply Split_join in E. simpl in E. rewrite app_nil_r in E. exact E.
    + pose proof (Split_fields s) as HF. rewrite E in HF. inversion HF; assumption.
  - intros [-> Hf]. apply Split_no_sep, Hf.
Qed.

Lemma Split_two (s a b : bytes) :
  Split s sep = [a; b] <-> s = a ++ sep :: b /\ (sep ∉ a) /\ (sep ∉ b).
Proof.
  split.
  - intros E. pose proof (Split_fields s) as HF. rewrite E in HF.
    inversion HF as [|? ? Ha HF']; subst. inversion HF' as [|? ? Hb _]; subst.
    apply Split_join in E. simpl in E. rewrite app_nil_r in E. auto.
  - intros (-> & Ha & Hb). rewrite Split_app_sep by assumption.
    rewrite Split_no_sep by assumption. reflexivity.
Qed.

(** One field more than separators. *)
Lemma Split_length (s : bytes) :
  length (Split s sep) = S (length (filter (fun c => c = sep) s)).
Proof.
  induction s as [|c s IH]; [reflexivity|].
  destruct (decide (c = sep)) as [->|Hc].
  - rewrite Split_cons_sep. rewrite filter_cons_True by reflexivity.
    simpl. rewrite IH. reflexivity.
  - destruct (Split_cons_other c s Hc) as (g & gs & E1 & E2).
    rewrite E2. rewrite filter_cons_False by assumption.
    rewrite <- IH, E1. reflexivity.
Qed.

(** A buffer without separator is one field; a buffer with one has a
    first field, a last field and the fields between them. *)
Lemma Split_with_sep (s : bytes) :
  sep ∈ s -> exists f mids last, Split s sep = f :: mids ++ [last].
Proof.
  intros Hs. destruct (Split_not_nil s) as (f & fs & E).
  destruct fs as [|g gs _] using rev_ind.
  - apply Split_one in E as [-> Hf]. contradiction.
  - eauto.
Qed.

Lemma Split_without_sep (s : bytes) (f : bytes) (mids : list bytes) (last : bytes) :
  Split s sep = f :: mids ++ [last] -> sep ∈ s.
Proof.
  intros E. apply Split_join in E. subst s.
  rewrite map_app, concat_app. simpl.
  rewrite !elem_of_app. right. right. apply list_elem_of_here.
Qed.
End Split.

Lemma Split_spec_fields (fs : list bytes) (last : bytes) :
  Forall (fun f => NUL ∉ f) fs -> NUL ∉ last ->
  Split (spec_fields fs ++ last) NUL = fs ++ [last].
Proof.
  intros Hfs Hl. induction Hfs as [|f fs Hf _ IH]; simpl.
  - apply Split_no_sep, Hl.
  - unfold spec_fields in *. simpl. rewrite <- !app_assoc. simpl.
    rewrite Split_app_sep by assumption. rewrite IH. reflexivity.
Qed.

(** ** The ranges [fields[1:len(fields)-1]] and [fields[0:len(fields)-1]] *)

Lemma slice_middle {A} (x : A) (mids : list A) (last : A) :
  slice (x :: mids ++ [last]) 1 (len (x :: mids ++ [last]) - 1) = Return mids.
Proof.
  unfold len. simpl length. rewrite length_app. simpl length.
  rewrite slice_ok; unfold len; simpl length; rewrite ?length_app; simpl length;
    try lia.
  f_equal. change (Z.to_nat 1) with 1%nat. simpl drop. unfold drop.
  replace (Z.to_nat _) with (length mids) by lia.
  apply take_app_length.
Qed.

Lemma slice_init {A} (mids : list A) (last : A) :
  slice (mids ++ [last]) 0 (len (mids ++ [last]) - 1) = Return mids.
Proof.
  unfold len. rewrite length_app. simpl length.
  rewrite slice_ok; unfold len; rewrite ?length_app; simpl length; try lia.
  f_equal. simpl drop. unfold drop.
  replace (Z.to_nat _) with (length mids) by lia.
  apply take_app_length.
Qed.

Lemma slice_single {A} (x : A) : slice [x] 1 (len [x] - 1) = Panic SliceBounds.
Proof. reflexivity. Qed.

(** ** Format detection *)

Lemma isUdevFormat_spec (raw : bytes) :
  isUdevFormat raw =
  Return (bool_decide ((40 < length raw)%nat /\ take 8 raw = libudev_prefix)).
Proof.
  unfold isUdevFormat.
  destruct (len raw >? 40) eqn:E.
  - apply Z.gtb_lt in E. unfold len in E.
    rewrite slice_ok by (unfold len; lia). simpl. f_equal.
    unfold bytes_Equal. apply bool_decide_ext. intuition lia.
  - f_equal. symmetry. apply bool_decide_eq_false.
    intros [H _]. unfold len in E.
    assert (Z.of_nat (length raw) > 40) as H' by lia.
    apply Z.gtb_gt in H'. congruence.
Qed.

Lemma isUdevFormat_true (raw : bytes) :
  isUdevFormat raw = Return true <->
  (40 < length raw)%nat /\ take 8 raw = libudev_prefix.
Proof.
  rewrite isUdevFormat_spec. split.
  - intros E. inversion E as [E']. apply bool_decide_eq_true in E'. exact E'.
  - intros H. f_equal. apply bool_decide_eq_true, H.
Qed.

Lemma isUdevFormat_false (raw : bytes) :
  isUdevFormat raw = Return false <->
  ~ ((40 < length raw)%nat /\ take 8 raw = libudev_prefix).
Proof.
  rewrite isUdevFormat_spec. split.
  - intros E. inversion E as [E']. apply bool_decide_eq_false in E'. exact E'.
  - intros H. f_equal. apply bool_decide_eq_false, H.
Qed.

(** ** The native format, step by step *)

(** What [ParseUEvent_native] does once the fields are known. *)
Lemma native_no_nul (raw : bytes) :
  NUL ∉ raw ->
  ParseUEvent_native raw =
    match Split raw "@" with
    | [h0; h1] =>
        if bool_decide (string_of h0 ∈ actions) then Panic SliceBounds
        else Return (None, Some (ErrUnknownAction (string_of h0)))
    | _ => Return (None, Some ErrWrongHeader)
    end.
Proof.
  intros H. unfold ParseUEvent_native. rewrite (Split_no_sep _ _ H).
  simpl. destruct (Split raw "@") as [|h0 [|h1 [|? ?]]]; try reflexivity.
  unfold ParseKObjAction. destruct (bool_decide (string_of h0 ∈ actions)); reflexivity.
Qed.

Lemma native_fields (raw hdr : bytes) (mids : list bytes) (last : bytes) :
  Split raw NUL = hdr :: mids ++ [last] ->
  ParseUEvent_native raw =
    match Split hdr "@" with
    | [h0; h1] =>
        if bool_decide (string_of h0 ∈ actions) then
          let '(env, ok) := range_env mids ∅ in
          let e := mkUEvent (string_of h0) (string_of h1) env in
          if ok then Return (Some e, None) else Return (Some e, Some ErrWrongEnv)
        else Return (None, Some (ErrUnknownAction (string_of h0)))
    | _ => Return (None, Some ErrWrongHeader)
    end.
Proof.
  intros E. unfold ParseUEvent_native. rewrite E.
  replace (len (hdr :: mids ++ [last]) =? 0) with false
    by (unfold len; simpl length; symmetry; apply Z.eqb_neq; lia).
  change (index (hdr :: mids ++ [last]) 0) with (Return (A:=bytes) hdr).
  cbn [bind].
  destruct (Split hdr "@") as [|h0 [|h1 [|? ?]]]; try reflexivity.
  unfold ParseKObjAction.
  destruct (bool_decide (string_of h0 ∈ actions)); [|reflexivity].
  rewrite slice_middle. reflexivity.
Qed.

(** The native parser never reports an error of the enriched parser. *)
Lemma native_errors (raw : bytes) (e : option UEvent) (err : error) :
  ParseUEvent_native raw = Return (e, Some err) ->
  err = ErrWrongHeader \/ err = ErrWrongEnv \/
  exists a, err = ErrUnknownAction a /\ a ∉ actions.
Proof.
  destruct (decide (NUL ∈ raw)) as [Hin|Hout].
  - destruct (Split_with_sep NUL raw Hin) as (hdr & mids & last & E).
    rewrite (native_fields _ _ _ _ E).
    destruct (Split hdr "@") as [|h0 [|h1 [|? ?]]];
      try (intros [= <- <-]; auto).
    destruct (bool_decide (string_of h0 ∈ actions)) eqn:Ha.
    + destruct (range_env mids ∅) as [env ok]. destruct ok; intros [= <- <-]; auto.
    + intros [= <- <-]. right. right. eexists. split; [reflexivity|].
      apply bool_decide_eq_false in Ha. exact Ha.
  - rewrite (native_no_nul _ Hout).
    destruct (Split raw "@") as [|h0 [|h1 [|? ?]]];
      try (intros [= <- <-]; auto).
    destruct (bool_decide (string_of h0 ∈ actions)) eqn:Ha; [discriminate|].
    intros [= <- <-]. right. right. eexists. split; [reflexivity|].
    apply bool_decide_eq_false in Ha. exact Ha.
Qed.

Lemma ParseUEvent_not_udev (P : Platform) (raw : bytes) :
  ~ ((40 < length raw)%nat /\ take 8 raw = libudev_prefix) ->
  ParseUEvent P raw = ParseUEvent_native raw.
Proof.
  intros H. apply isUdevFormat_false in H.
  unfold ParseUEvent. rewrite H. reflexivity.
Qed.

(** C1. [ParseUEvent] hands the buffer to the enriched parser exactly when
    the buffer is longer than 40 bytes and its first 8 bytes are "libudev"
    followed by a NUL byte. Every other buffer goes through the native
    parser, and none of the errors of the enriched parser can come out. *)
Theorem ParseUEvent_dispatch (P : Platform) (raw : bytes) :
  (isUdevFormat raw = Return true <->
     (40 < length raw)%nat /\ take 8 raw = libudev_prefix) /\
  ((40 < length raw)%nat /\ take 8 raw = libudev_prefix ->
     ParseUEvent P raw = parseUdevEvent P raw) /\
  (~ ((40 < length raw)%nat /\ take 8 raw = libudev_prefix) ->
     ParseUEvent P raw = ParseUEvent_native raw /\
     forall e err, ParseUEvent P raw = Return (e, Some err) ->
       err ∉ [ErrMagicMismatch; ErrInvalidOffset; ErrDataMissing; ErrInvalidEnvData]).
Proof.
  split; [apply isUdevFormat_true|]. split.
  - intros H. apply isUdevFormat_true in H. unfold ParseUEvent. rewrite H. reflexivity.
  - intros H. pose proof (ParseUEvent_not_udev P raw H) as E.
    split; [exact E|]. intros e err Hr. rewrite E in Hr.
    apply native_errors in Hr as [->|[->|(a & -> & _)]];
      rewrite !not_elem_of_cons; repeat split; try discriminate; apply not_elem_of_nil.
Qed.

Lemma ParseUEvent_dispatch_witness :
  ParseUEvent linux_amd64 (scenario2 LittleEndian)
    = parseUdevEvent linux_amd64 (scenario2 LittleEndian) /\
  ParseUEvent linux_amd64 scenario1 = ParseUEvent_native scenario1.
Proof.
  split.
  - destruct (ParseUEvent_dispatch linux_amd64 (scenario2 LittleEndian)) as (_ & Hu & _).
    apply Hu. split; [vm_compute; lia|vm_compute; reflexivity].
  - destruct (ParseUEvent_dispatch linux_amd64 scenario1) as (_ & _ & Hn).
    apply Hn. vm_compute. intros Hc. destruct Hc as [Hl Hr]. lia.
Defined.

(** ** Reading the header of the enriched format *)

Lemma byte_val_range (c : ascii) : 0 <= byte_val c < 256.
Proof.
  unfold byte_val. pose proof (N_ascii_bounded c) as H. lia.
Qed.

Lemma lor_shiftl_add (a b n : Z) :
  0 <= n -> 0 <= a < 2 ^ n -> 0 <= b -> Z.lor a (Z.shiftl b n) = a + b * 2 ^ n.
Proof.
  intros Hn Ha Hb.
  assert (Z.land a (Z.shiftl b n) = 0) as Hl.
  { apply Z.bits_inj'. intros m Hm. rewrite Z.land_spec, Z.bits_0.
    destruct (Z.lt_ge_cases m n) as [Hlt|Hge].
    - rewrite (Z.shiftl_spec_low b n m Hlt). apply Bool.andb_false_r.
    - destruct (Z.eq_dec a 0) as [->|Hnz]; [rewrite Z.bits_0; reflexivity|].
      rewrite (Z.bits_above_log2 a m); [reflexivity|lia|].
      apply Z.log2_lt_pow2; [lia|].
      apply Z.lt_le_trans with (2 ^ n); [lia|]. apply Z.pow_le_mono_r; lia. }
  rewrite <- Z.lxor_lor by exact Hl.
  rewrite <- Z.add_nocarry_lxor by exact Hl.
  rewrite Z.shiftl_mul_pow2 by lia. reflexivity.
Qed.

(** The shifts and ors of the decoders add up the four bytes. *)
Lemma lor4 (v0 v1 v2 v3 : Z) :
  0 <= v0 < 256 -> 0 <= v1 < 256 -> 0 <= v2 < 256 -> 0 <= v3 < 256 ->
  Z.lor (Z.lor (Z.lor v3 (Z.shiftl v2 8)) (Z.shiftl v1 16)) (Z.shiftl v0 24)
  = ((v0 * 256 + v1) * 256 + v2) * 256 + v3.
Proof.
  intros H0 H1 H2 H3.
  rewrite (lor_shiftl_add v3 v2 8) by lia.
  rewrite (lor_shiftl_add _ v1 16) by lia.
  rewrite (lor_shiftl_add _ v0 24) by lia.
  lia.
Qed.

Lemma spec_be_4 (b0 b1 b2 b3 : ascii) :
  spec_be [b0; b1; b2; b3]
  = ((byte_val b0 * 256 + byte_val b1) * 256 + byte_val b2) * 256 + byte_val b3.
Proof. unfold spec_be. simpl. lia. Qed.

Lemma spec_be_4_range (b0 b1 b2 b3 : ascii) : 0 <= spec_be [b0; b1; b2; b3] < 2 ^ 32.
Proof.
  rewrite spec_be_4.
  pose proof (byte_val_range b0). pose proof (byte_val_range b1).
  pose proof (byte_val_range b2). pose proof (byte_val_range b3). lia.
Qed.

Lemma BigEndian_Uint32_spec (b0 b1 b2 b3 : ascii) (rest : bytes) :
  BigEndian_Uint32 (b0 :: b1 :: b2 :: b3 :: rest) = Return (spec_be [b0; b1; b2; b3]).
Proof.
  unfold BigEndian_Uint32. cbn [index bind Z.leb Z.compare Z.to_nat Pos.to_nat
    Pos.iter_op Nat.add lookup list_lookup].
  simpl. f_equal. rewrite spec_be_4. apply lor4; apply byte_val_range.
Qed.

Lemma spec_native_range (order : ByteOrder) (b0 b1 b2 b3 : ascii) :
  0 <= spec_native order [b0; b1; b2; b3] < 2 ^ 32.
Proof. destruct order; apply spec_be_4_range. Qed.

(** [parseUdevEvent] on a buffer longer than 40 bytes, with the header
    fields as the specification words them: bytes 8..12 most significant
    byte first, bytes 16..20 in the order of the platform. No step panics. *)
Lemma udev_steps (P : Platform) (raw : bytes) :
  (40 < length raw)%nat ->
  parseUdevEvent P raw =
    if bool_decide (spec_be (spec_bytes_at raw 8 4) ≠ libudevMagic)
    then Return (None, Some ErrMagicMismatch)
    else
      let off := spec_native (nativeOrder P) (spec_bytes_at raw 16 4) in
      if off >=? uint32 (len raw) then Return (None, Some ErrInvalidOffset)
      else
        let '(envdata, ok) :=
          range_env (removelast (Split (drop (Z.to_nat off) raw) NUL)) ∅ in
        if negb ok then Return (None, Some ErrInvalidEnvData)
        else
          let a := ToLower P (map_get envdata "ACTION") in
          if bool_decide (a ∈ actions)
          then Return (Some (mkUEvent a (map_get envdata "DEVPATH") envdata), None)
          else Return (None, Some (ErrUnknownAction a)).
Proof.
  intros Hlen.
  assert (exists h8 b8 b9 b10 b11 h4 b16 b17 b18 b19 rest,
    length h8 = 8%nat /\ length h4 = 4%nat /\
    raw = h8 ++ [b8; b9; b10; b11] ++ h4 ++ [b16; b17; b18; b19] ++ rest)
    as (h8 & b8 & b9 & b10 & b11 & h4 & b16 & b17 & b18 & b19 & rest & L8 & L4 & E).
  { do 20 (destruct raw as [|? raw]; [simpl in Hlen; lia|]).
    eexists [_;_;_;_;_;_;_;_], _, _, _, _, [_;_;_;_], _, _, _, _, raw.
    repeat split; reflexivity. }
  do 8 (destruct h8 as [|? h8]; [discriminate|]). destruct h8; [|discriminate].
  do 4 (destruct h4 as [|? h4]; [discriminate|]). destruct h4; [|discriminate].
  clear L8 L4. simpl app in E.
  assert (spec_bytes_at raw 8 4 = [b8; b9; b10; b11]) as -> by (rewrite E; reflexivity).
  assert (spec_bytes_at raw 16 4 = [b16; b17; b18; b19]) as -> by (rewrite E; reflexivity).
  unfold parseUdevEvent.
  rewrite slice_from_ok by (unfold len; lia).
  change (Z.to_nat 8) with 8%nat.
  assert (drop 8 raw = b8 :: b9 :: b10 :: b11 :: a7 :: a8 :: a9 :: a10
                          :: b16 :: b17 :: b18 :: b19 :: rest) as ->
    by (rewrite E; reflexivity).
  cbn [bind]. rewrite BigEndian_Uint32_spec. cbn [bind].
  destruct (bool_decide (spec_be [b8; b9; b10; b11] ≠ libudevMagic)); [reflexivity|].
  assert (native_Uint32_at (nativeOrder P) raw 16
          = Return (spec_native (nativeOrder P) [b16; b17; b18; b19])) as ->.
  { unfold native_Uint32_at.
    assert (raw !! 16%nat = Some b16 /\ raw !! 17%nat = Some b17 /\
            raw !! 18%nat = Some b18 /\ raw !! 19%nat = Some b19)
      as (H16 & H17 & H18 & H19) by (rewrite E; repeat split; reflexivity).
    change (index raw 16) with (index raw (Z.of_nat 16)).
    rewrite (index_ok raw 16 b16 H16). cbn [bind].
    replace (16 + 4 <=? len raw) with true
      by (symmetry; apply Z.leb_le; unfold len; lia).
    f_equal.
    assert (forall k n x, Z.to_nat (16 + k) = n -> raw !! n = Some x ->
              byte_val (nth (Z.to_nat (16 + k)) raw NUL) = byte_val x) as Hn.
    { intros k n x -> Hk. f_equal. apply nth_lookup_Some, Hk. }
    rewrite (Hn 0 _ b16 eq_refl H16), (Hn 1 _ b17 eq_refl H17),
      (Hn 2 _ b18 eq_refl H18), (Hn 3 _ b19 eq_refl H19).
    destruct (nativeOrder P); unfold spec_native, reverse; simpl rev_append;
      rewrite spec_be_4; apply lor4; apply byte_val_range. }
  cbn [bind].
  set (off := spec_native (nativeOrder P) [b16; b17; b18; b19]).
  pose proof (spec_native_range (nativeOrder P) b16 b17 b18 b19) as Hoff.
  fold off in Hoff. cbv zeta.
  destruct (off >=? uint32 (len raw)) eqn:Hge; [reflexivity|].
  assert (off < len raw) as Hlt.
  { assert (off < uint32 (len raw)) as H' by (rewrite Z.geb_leb in Hge; apply Z.leb_gt in Hge; lia).
    unfold uint32 in H'. pose proof (len_nonneg raw).
    pose proof (Z.mod_le (len raw) (2 ^ 32)). lia. }
  rewrite slice_from_ok by lia. cbn [bind].
  destruct (Split_not_nil NUL (drop (Z.to_nat off) raw)) as (f & fs & EF).
  rewrite EF.
  replace (len (f :: fs) =? 0) with false
    by (unfold len; simpl length; symmetry; apply Z.eqb_neq; lia).
  destruct (exists_last (l := f :: fs)) as (mids & last & EL); [discriminate|].
  rewrite EL, slice_init, removelast_last. cbn [bind].
  destruct (range_env mids ∅) as [envdata ok]. destruct ok; [|reflexivity].
  cbn [negb]. unfold ParseKObjAction.
  destruct (bool_decide (ToLower P (map_get envdata "ACTION") ∈ actions)); reflexivity.
Qed.

(** Membership in a concrete list, by computation. *)
Ltac by_compute := apply (bool_decide_unpack _); vm_compute; exact I.

(** ** The loop over the environment fields *)

Lemma two_parts_split (sep : ascii) (f : bytes) :
  two_parts sep f <-> exists k v, Split f sep = [k; v].
Proof.
  unfold two_parts. split.
  - destruct (Split f sep) as [|k [|v [|? ?]]]; try discriminate. eauto.
  - intros (k & v & ->). reflexivity.
Qed.

Lemma range_env_ok (mids : list bytes) (kvs : list (bytes * bytes)) (m : gmap string string) :
  Forall2 (fun f kv => Split f "=" = [kv.1; kv.2]) mids kvs ->
  range_env mids m
  = (foldl (fun m kv => <[string_of kv.1 := string_of kv.2]> m) m kvs, true).
Proof.
  intros H. revert m. induction H as [|f kv mids kvs Hf _ IH]; intros m.
  - reflexivity.
  - simpl. rewrite Hf. apply IH.
Qed.

Lemma range_env_bad (mids : list bytes) (m : gmap string string) :
  Exists (fun f => ~ two_parts "=" f) mids ->
  exists m', range_env mids m = (m', false).
Proof.
  intros H. revert m. induction mids as [|f mids IH]; intros m.
  - inversion H.
  - simpl. destruct (Split f "=") as [|k [|v [|? ?]]] eqn:E; eauto.
    apply IH. inversion H as [? ? Hf|]; subst; [|assumption].
    exfalso. apply Hf. unfold two_parts. rewrite E. reflexivity.
Qed.

Lemma range_env_true (mids : list bytes) (m m' : gmap string string) :
  range_env mids m = (m', true) ->
  exists kvs, Forall2 (fun f kv => Split f "=" = [kv.1; kv.2]) mids kvs /\
    m' = foldl (fun m kv => <[string_of kv.1 := string_of kv.2]> m) m kvs.
Proof.
  revert m. induction mids as [|f mids IH]; intros m H.
  - inversion H; subst. exists []. split; [constructor|reflexivity].
  - simpl in H. destruct (Split f "=") as [|k [|v [|? ?]]] eqn:E; try discriminate.
    apply IH in H as (kvs & HF & ->). exists ((k, v) :: kvs). split.
    + constructor; assumption.
    + reflexivity.
Qed.

(** ** The native format *)

Lemma scenario1_parses (P : Platform) :
  ParseUEvent P scenario1
  = Return (Some (mkUEvent ADD "/devices/foo" {["DEVPATH" := "/devices/foo"]}), None).
Proof.
  unfold ParseUEvent.
  replace (isUdevFormat scenario1) with (Return false) by (vm_compute; reflexivity).
  cbn [bind].
  rewrite (native_fields scenario1 (bytes_of "add@/devices/foo")
             [bytes_of "DEVPATH=/devices/foo"] []) by (vm_compute; reflexivity).
  replace (Split (bytes_of "add@/devices/foo") "@")
    with [bytes_of "add"; bytes_of "/devices/foo"] by (vm_compute; reflexivity).
  rewrite bool_decide_eq_true_2 by by_compute.
  rewrite (range_env_ok _ [(bytes_of "DEVPATH", bytes_of "/devices/foo")])
    by (repeat constructor).
  reflexivity.
Qed.

(** C2, as the code has it. For a native buffer with at least one NUL byte,
    whose NUL-separated fields are [hdr], [mids] and [last]: when [hdr] does
    not split on [@] into exactly two parts the result is the header error;
    when it does, and the action is one of the eight, each field of [mids]
    must split on [=] into exactly two parts, and they populate the
    environment in order; a field of [mids] that does not gives the
    environment error. The field [last], the bytes after the final NUL, is
    dropped unseen. The buffer of scenario 1 parses as the specification
    says. *)
Theorem native_format_fields (P : Platform) (raw hdr : bytes) (mids : list bytes)
    (last : bytes) :
  ~ ((40 < length raw)%nat /\ take 8 raw = libudev_prefix) ->
  Split raw NUL = hdr :: mids ++ [last] ->
  (~ two_parts "@" hdr ->
     ParseUEvent P raw = Return (None, Some ErrWrongHeader)) /\
  (forall a p, Split hdr "@" = [a; p] -> string_of a ∈ actions ->
     (forall kvs, Forall2 (fun f kv => Split f "=" = [kv.1; kv.2]) mids kvs ->
        ParseUEvent P raw
        = Return (Some (mkUEvent (string_of a) (string_of p) (spec_env kvs)), None)) /\
     (Exists (fun f => ~ two_parts "=" f) mids ->
        exists e, ParseUEvent P raw = Return (e, Some ErrWrongEnv))) /\
  ParseUEvent P scenario1
  = Return (Some (mkUEvent ADD "/devices/foo" {["DEVPATH" := "/devices/foo"]}), None).
Proof.
  intros Hfmt E. rewrite (ParseUEvent_not_udev P raw Hfmt).
  rewrite (native_fields _ _ _ _ E).
  split; [|split; [|apply scenario1_parses]].
  - intros Hh. unfold two_parts in Hh.
    destruct (Split hdr "@") as [|h0 [|h1 [|? ?]]]; try reflexivity.
    exfalso. apply Hh. reflexivity.
  - intros a p -> Ha. rewrite bool_decide_eq_true_2 by exact Ha. split.
    + intros kvs Hk. rewrite (range_env_ok _ _ _ Hk). reflexivity.
    + intros Hbad. destruct (range_env_bad mids ∅ Hbad) as (m' & ->). eauto.
Qed.

Lemma native_format_fields_witness :
  ParseUEvent linux_amd64 scenario1
  = Return (Some (mkUEvent ADD "/devices/foo" (spec_env [(bytes_of "DEVPATH", bytes_of "/devices/foo")])), None).
Proof.
  assert (~ ((40 < length scenario1)%nat /\ take 8 scenario1 = libudev_prefix)) as Hfmt
    by (vm_compute; intros Hc; destruct Hc as [Hl Hr]; lia).
  assert (Split scenario1 NUL
          = bytes_of "add@/devices/foo" :: [bytes_of "DEVPATH=/devices/foo"] ++ [[]]) as E
    by (vm_compute; reflexivity).
  destruct (native_format_fields linux_amd64 _ _ _ _ Hfmt E) as (_ & H & _).
  assert (Split (bytes_of "add@/devices/foo") "@"
          = [bytes_of "add"; bytes_of "/devices/foo"]) as Ea
    by (vm_compute; reflexivity).
  assert (string_of (bytes_of "add") ∈ actions) as Ha by by_compute.
  destruct (H _ _ Ea Ha) as [Hok Hbad].
  apply Hok. repeat constructor.
Defined.

(** C2 as the specification words it fails on a buffer that does not end
    in NUL: the last field "garbage" is not empty and does not split on [=]
    into two parts, and the buffer parses without error. *)
Lemma native_last_field_unchecked :
  Split trailing_garbage NUL = [bytes_of "add@/a"; bytes_of "garbage"] /\
  bytes_of "garbage" <> [] /\
  ~ two_parts "=" (bytes_of "garbage") /\
  ParseUEvent linux_amd64 trailing_garbage
  = Return (Some (mkUEvent ADD "/a" ∅), None).
Proof.
  split; [vm_compute; reflexivity|]. split; [discriminate|].
  split; [vm_compute; discriminate|].
  unfold ParseUEvent.
  replace (isUdevFormat trailing_garbage) with (Return false) by (vm_compute; reflexivity).
  cbn [bind].
  rewrite (native_fields trailing_garbage (bytes_of "add@/a") [] (bytes_of "garbage"))
    by (vm_compute; reflexivity).
  replace (Split (bytes_of "add@/a") "@") with [bytes_of "add"; bytes_of "/a"]
    by (vm_compute; reflexivity).
  rewrite bool_decide_eq_true_2 by by_compute.
  reflexivity.
Qed.

(** ** The enriched format *)

Lemma ParseUEvent_udev (P : Platform) (raw : bytes) :
  (40 < length raw)%nat -> take 8 raw = libudev_prefix ->
  ParseUEvent P raw = parseUdevEvent P raw.
Proof.
  intros H1 H2. unfold ParseUEvent.
  rewrite (proj2 (isUdevFormat_true raw) (conj H1 H2)). reflexivity.
Qed.

(** C3. On the enriched path the magic number is checked first, then the
    payload offset. When bytes 8..12, most significant byte first, are not
    0xFEEDCAFE, the result is the magic-mismatch error and no event. When
    the number in bytes 16..20, in the byte order of the platform, is at
    least the length of the buffer, there is no event either: the result is
    the invalid-offset error once the magic number has passed its check, and
    the magic-mismatch error otherwise. *)
Theorem udev_header_errors (P : Platform) (raw : bytes) :
  (40 < length raw)%nat -> take 8 raw = libudev_prefix ->
  (spec_be (spec_bytes_at raw 8 4) <> libudevMagic ->
     ParseUEvent P raw = Return (None, Some ErrMagicMismatch)) /\
  (spec_native (nativeOrder P) (spec_bytes_at raw 16 4) >= len raw ->
     (spec_be (spec_bytes_at raw 8 4) = libudevMagic ->
        ParseUEvent P raw = Return (None, Some ErrInvalidOffset)) /\
     (exists err, ParseUEvent P raw = Return (None, Some err) /\
        (err = ErrInvalidOffset \/ err = ErrMagicMismatch))).
Proof.
  intros H1 H2. rewrite (ParseUEvent_udev P raw H1 H2), (udev_steps P raw) by lia.
  split.
  - intros Hm. rewrite bool_decide_eq_true_2 by exact Hm. reflexivity.
  - intros Hoff.
    assert ((spec_native (nativeOrder P) (spec_bytes_at raw 16 4) >=? uint32 (len raw))
            = true) as Hge.
    { rewrite Z.geb_leb. apply Z.leb_le. unfold uint32.
      pose proof (len_nonneg raw). pose proof (Z.mod_le (len raw) (2 ^ 32)). lia. }
    split.
    + intros Hm. rewrite bool_decide_eq_false_2 by (intros Hc; apply Hc, Hm).
      cbv zeta. rewrite Hge. reflexivity.
    + destruct (bool_decide (spec_be (spec_bytes_at raw 8 4) ≠ libudevMagic)).
      * eauto.
      * cbv zeta. rewrite Hge. eauto.
Qed.

Lemma udev_header_errors_witness :
  ParseUEvent linux_amd64 bad_magic = Return (None, Some ErrMagicMismatch) /\
  ParseUEvent linux_amd64 bad_offset = Return (None, Some ErrInvalidOffset).
Proof.
  split.
  - destruct (udev_header_errors linux_amd64 bad_magic) as (Hm & _);
      [vm_compute; lia|vm_compute; reflexivity|].
    apply Hm. vm_compute. discriminate.
  - destruct (udev_header_errors linux_amd64 bad_offset) as (_ & Ho);
      [vm_compute; lia|vm_compute; reflexivity|].
    destruct Ho as (Ho & _); [vm_compute; discriminate|].
    apply Ho. vm_compute. reflexivity.
Defined.

(** What the enriched parser gives when the header is good and the payload
    is a list of [key=value] fields. *)
Lemma udev_payload (P : Platform) (raw : bytes) (mids : list bytes) (last : bytes)
    (kvs : list (bytes * bytes)) :
  (40 < length raw)%nat -> take 8 raw = libudev_prefix ->
  spec_be (spec_bytes_at raw 8 4) = libudevMagic ->
  spec_native (nativeOrder P) (spec_bytes_at raw 16 4) < uint32 (len raw) ->
  Split (drop (Z.to_nat (spec_native (nativeOrder P) (spec_bytes_at raw 16 4))) raw) NUL
    = mids ++ [last] ->
  Forall2 (fun f kv => Split f "=" = [kv.1; kv.2]) mids kvs ->
  ParseUEvent P raw =
    let a := ToLower P (map_get (spec_env kvs) "ACTION") in
    if bool_decide (a ∈ actions)
    then Return (Some (mkUEvent a (map_get (spec_env kvs) "DEVPATH") (spec_env kvs)), None)
    else Return (None, Some (ErrUnknownAction a)).
Proof.
  intros H1 H2 Hm Hoff Hs Hk.
  rewrite (ParseUEvent_udev P raw H1 H2), (udev_steps P raw) by lia.
  rewrite bool_decide_eq_false_2 by (intros Hc; apply Hc, Hm). cbv zeta.
  replace (_ >=? _) with false by (symmetry; rewrite Z.geb_leb; apply Z.leb_gt; lia).
  rewrite Hs, removelast_last, (range_env_ok _ _ _ Hk). reflexivity.
Qed.

(** An event of the enriched parser has its action and its kobject path
    from its own environment. *)
Lemma udev_event_from_env (P : Platform) (raw : bytes) (e : UEvent) (err : option error) :
  (40 < length raw)%nat ->
  parseUdevEvent P raw = Return (Some e, err) ->
  err = None /\
  Action e = ToLower P (map_get (Env e) "ACTION") /\ Action e ∈ actions /\
  KObj e = map_get (Env e) "DEVPATH".
Proof.
  intros H1. rewrite (udev_steps P raw) by lia.
  destruct (bool_decide _); [discriminate|]. cbv zeta.
  destruct (_ >=? _); [discriminate|].
  destruct (range_env _ ∅) as [envdata ok]. destruct ok; [|discriminate].
  cbn [negb].
  destruct (bool_decide (ToLower P (map_get envdata "ACTION") ∈ actions)) eqn:Ha;
    [|discriminate].
  intros [= <- <-]. apply bool_decide_eq_true in Ha. simpl. auto.
Qed.

Lemma scenario2_parses (P : Platform) :
  platform_ok P ->
  ParseUEvent P (scenario2 (nativeOrder P))
  = Return (Some (mkUEvent CHANGE "/devices/bar"
                    (<["DEVPATH" := "/devices/bar"]> {["ACTION" := "change"]})), None).
Proof.
  intros [Hlow _].
  rewrite (udev_payload P (scenario2 (nativeOrder P))
             [bytes_of "ACTION=change"; bytes_of "DEVPATH=/devices/bar"] []
             [(bytes_of "ACTION", bytes_of "change");
              (bytes_of "DEVPATH", bytes_of "/devices/bar")]).
  - replace (map_get _ "ACTION") with "change" by (vm_compute; reflexivity).
    replace (map_get _ "DEVPATH") with "/devices/bar" by (vm_compute; reflexivity).
    cbv zeta. rewrite (Hlow "change") by reflexivity.
    change (lower_string "change") with CHANGE.
    rewrite bool_decide_eq_true_2 by by_compute. reflexivity.
  - destruct (nativeOrder P); vm_compute; lia.
  - destruct (nativeOrder P); vm_compute; reflexivity.
  - destruct (nativeOrder P); vm_compute; reflexivity.
  - destruct (nativeOrder P); vm_compute; reflexivity.
  - destruct (nativeOrder P); vm_compute; reflexivity.
  - repeat constructor.
Qed.

(** C5. For a buffer on the enriched path with the magic number and an
    offset inside the buffer, whose payload fields [mids] each split on [=]
    into the pairs [kvs]: the environment is the one the pairs populate; the
    action is the lower-cased [env["ACTION"]], and the parse succeeds exactly
    when that is one of the eight actions; the kobject path is
    [env["DEVPATH"]], the value under the key [DEVPATH] when there is one
    and the empty string, not an error, when there is none. The buffer of
    scenario 2 parses as the specification says. *)
Theorem udev_event_fields (P : Platform) (raw : bytes) (mids : list bytes)
    (last : bytes) (kvs : list (bytes * bytes)) :
  platform_ok P ->
  (40 < length raw)%nat -> take 8 raw = libudev_prefix ->
  spec_be (spec_bytes_at raw 8 4) = libudevMagic ->
  spec_native (nativeOrder P) (spec_bytes_at raw 16 4) < uint32 (len raw) ->
  Split (drop (Z.to_nat (spec_native (nativeOrder P) (spec_bytes_at raw 16 4))) raw) NUL
    = mids ++ [last] ->
  Forall2 (fun f kv => Split f "=" = [kv.1; kv.2]) mids kvs ->
  (ToLower P (map_get (spec_env kvs) "ACTION") ∈ actions ->
     exists e, ParseUEvent P raw = Return (Some e, None) /\
       Env e = spec_env kvs /\
       Action e = ToLower P (map_get (Env e) "ACTION") /\
       KObj e = map_get (Env e) "DEVPATH" /\
       (forall v, Env e !! "DEVPATH" = Some v -> KObj e = v) /\
       (Env e !! "DEVPATH" = None -> KObj e = "")) /\
  (ToLower P (map_get (spec_env kvs) "ACTION") ∉ actions ->
     ParseUEvent P raw
     = Return (None, Some (ErrUnknownAction (ToLower P (map_get (spec_env kvs) "ACTION"))))) /\
  ParseUEvent P (scenario2 (nativeOrder P))
  = Return (Some (mkUEvent CHANGE "/devices/bar"
                    (<["DEVPATH" := "/devices/bar"]> {["ACTION" := "change"]})), None).
Proof.
  intros HP H1 H2 Hm Hoff Hs Hk.
  rewrite (udev_payload P raw mids last kvs H1 H2 Hm Hoff Hs Hk). cbv zeta.
  split; [|split; [|apply scenario2_parses, HP]].
  - intros Ha. rewrite bool_decide_eq_true_2 by exact Ha.
    eexists. split; [reflexivity|]. simpl. repeat split.
    + intros v Hv. unfold map_get. rewrite Hv. reflexivity.
    + intros Hv. unfold map_get. rewrite Hv. reflexivity.
  - intros Ha. rewrite bool_decide_eq_false_2 by exact Ha. reflexivity.
Qed.

Lemma linux_amd64_ok : platform_ok linux_amd64.
Proof. split; [reflexivity|simpl; lia]. Qed.

Lemma udev_event_fields_witness :
  exists e, ParseUEvent linux_amd64 (scenario2 LittleEndian) = Return (Some e, None) /\
    Action e = CHANGE /\ KObj e = "/devices/bar" /\
    Env e !! "DEVPATH" = Some "/devices/bar".
Proof.
  destruct (udev_event_fields linux_amd64 (scenario2 LittleEndian)
              [bytes_of "ACTION=change"; bytes_of "DEVPATH=/devices/bar"] []
              [(bytes_of "ACTION", bytes_of "change");
               (bytes_of "DEVPATH", bytes_of "/devices/bar")])
    as (Hok & Hbad & Hsc).
  - exact linux_amd64_ok.
  - vm_compute. lia.
  - vm_compute. reflexivity.
  - vm_compute. reflexivity.
  - vm_compute. reflexivity.
  - vm_compute. reflexivity.
  - repeat constructor.
  - destruct Hok as (e & He & Henv & Hact & Hk & Hsome & Hnone); [by_compute|].
    exists e. split; [exact He|].
    rewrite Hact, Hk, Henv. vm_compute. auto.
Defined.

(** ** Actions *)

Lemma ParseKObjAction_spec (s : string) :
  ParseKObjAction s
  = (s, if bool_decide (s ∈ actions) then None else Some (ErrUnknownAction s)).
Proof. unfold ParseKObjAction. destruct (bool_decide (s ∈ actions)); reflexivity. Qed.

Lemma native_event_action (raw : bytes) (e : UEvent) (err : option error) :
  ParseUEvent_native raw = Return (Some e, err) -> Action e ∈ actions.
Proof.
  destruct (decide (NUL ∈ raw)) as [Hin|Hout].
  - destruct (Split_with_sep NUL raw Hin) as (hdr & mids & last & E).
    rewrite (native_fields _ _ _ _ E).
    destruct (Split hdr "@") as [|h0 [|h1 [|? ?]]]; try discriminate.
    destruct (bool_decide (string_of h0 ∈ actions)) eqn:Ha; [|discriminate].
    apply bool_decide_eq_true in Ha.
    destruct (range_env mids ∅) as [env ok].
    destruct ok; intros [= <- <-]; exact Ha.
  - rewrite (native_no_nul _ Hout).
    destruct (Split raw "@") as [|h0 [|h1 [|? ?]]]; try discriminate.
    destruct (bool_decide (string_of h0 ∈ actions)); discriminate.
Qed.

Lemma ParseUEvent_cases (P : Platform) (raw : bytes) :
  ((40 < length raw)%nat /\ ParseUEvent P raw = parseUdevEvent P raw) \/
  ParseUEvent P raw = ParseUEvent_native raw.
Proof.
  destruct (decide ((40 < length raw)%nat /\ take 8 raw = libudev_prefix)) as [[H1 H2]|H].
  - left. split; [exact H1|]. apply ParseUEvent_udev; assumption.
  - right. apply ParseUEvent_not_udev, H.
Qed.

(** C4. An action string is accepted exactly when it is one of the eight
    actions, letter for letter; any other string is the unknown-action
    error. So every event that [ParseUEvent] returns carries one of the
    eight actions, a native buffer whose header splits into an action that
    is not one of them gives the unknown-action error and no event, and so
    does an enriched buffer whose lower-cased [ACTION] is not one of them. *)
Theorem action_validated (P : Platform) (raw : bytes) :
  (forall s, ParseKObjAction s
     = (s, if bool_decide (s ∈ actions) then None else Some (ErrUnknownAction s))) /\
  actions = ["add"; "remove"; "change"; "move"; "online"; "offline"; "bind"; "unbind"] /\
  ParseKObjAction "ADD" = ("ADD", Some (ErrUnknownAction "ADD")) /\
  (forall e err, ParseUEvent P raw = Return (Some e, err) -> Action e ∈ actions) /\
  (forall hdr rest a p,
     ~ ((40 < length raw)%nat /\ take 8 raw = libudev_prefix) ->
     Split raw NUL = hdr :: rest -> Split hdr "@" = [a; p] ->
     string_of a ∉ actions ->
     ParseUEvent P raw = Return (None, Some (ErrUnknownAction (string_of a)))) /\
  (forall mids last kvs,
     (40 < length raw)%nat -> take 8 raw = libudev_prefix ->
     spec_be (spec_bytes_at raw 8 4) = libudevMagic ->
     spec_native (nativeOrder P) (spec_bytes_at raw 16 4) < uint32 (len raw) ->
     Split (drop (Z.to_nat (spec_native (nativeOrder P) (spec_bytes_at raw 16 4))) raw) NUL
       = mids ++ [last] ->
     Forall2 (fun f kv => Split f "=" = [kv.1; kv.2]) mids kvs ->
     ToLower P (map_get (spec_env kvs) "ACTION") ∉ actions ->
     ParseUEvent P raw
     = Return (None, Some (ErrUnknownAction (ToLower P (map_get (spec_env kvs) "ACTION"))))).
Proof.
  split; [apply ParseKObjAction_spec|]. split; [reflexivity|].
  split; [reflexivity|]. split; [|split].
  - intros e err H. destruct (ParseUEvent_cases P raw) as [[Hl E]|E]; rewrite E in H.
    + apply (udev_event_from_env P raw e err Hl H).
    + apply (native_event_action raw e err H).
  - intros hdr rest a p Hfmt E Eh Ha.
    rewrite (ParseUEvent_not_udev P raw Hfmt).
    destruct rest as [|g gs _] using rev_ind.
    + apply Split_one in E as [-> Hnul]. rewrite (native_no_nul _ Hnul), Eh.
      rewrite bool_decide_eq_false_2 by exact Ha. reflexivity.
    + rewrite (native_fields _ _ _ _ E), Eh.
      rewrite bool_decide_eq_false_2 by exact Ha. reflexivity.
  - intros mids last kvs H1 H2 Hm Hoff Hs Hk Ha.
    rewrite (udev_payload P raw mids last kvs H1 H2 Hm Hoff Hs Hk). cbv zeta.
    rewrite bool_decide_eq_false_2 by exact Ha. reflexivity.
Qed.

(** "ADD@/devices/foo\\0" is a native buffer whose action is not accepted:
    the native format does not fold the case of the action. *)
Lemma action_validated_witness :
  ParseUEvent linux_amd64 (spec_fields [bytes_of "ADD@/devices/foo"])
  = Return (None, Some (ErrUnknownAction "ADD")).
Proof.
  destruct (action_validated linux_amd64 (spec_fields [bytes_of "ADD@/devices/foo"]))
    as (_ & _ & _ & _ & Hnative & _).
  apply (Hnative (bytes_of "ADD@/devices/foo") [[]] (bytes_of "ADD") (bytes_of "/devices/foo")).
  - vm_compute. intros Hc. destruct Hc as [Hl Hr]. lia.
  - vm_compute. reflexivity.
  - vm_compute. reflexivity.
  - intros Hc. apply (bool_decide_pack _) in Hc. vm_compute in Hc. exact Hc.
Defined.

(** ** Panics *)

(** C7, that [ParseUEvent] returns an event or an error on every buffer
    and never panics, does not hold of the code: a buffer without NUL whose
    only field is a good header makes [fields[1:len(fields)-1]] the range
    [1:0], and the parser panics with slice bounds out of range. *)
Theorem ParseUEvent_header_only_panics (P : Platform) :
  ParseUEvent P header_only = Panic SliceBounds.
Proof.
  unfold ParseUEvent.
  replace (isUdevFormat header_only) with (Return false) by (vm_compute; reflexivity).
  cbn [bind]. rewrite native_no_nul.
  - replace (Split header_only "@") with [bytes_of "add"; bytes_of "/devices/foo"]
      by (vm_compute; reflexivity).
    rewrite bool_decide_eq_true_2 by by_compute. reflexivity.
  - intros Hc. apply (bool_decide_pack _) in Hc. vm_compute in Hc. exact Hc.
Qed.

(** These are the only buffers on which the parser panics: no NUL byte, and
    the whole buffer a header [action@path] with one of the eight actions. *)
Lemma ParseUEvent_panics_iff (P : Platform) (raw : bytes) (p : panic) :
  ParseUEvent P raw = Panic p <->
  p = SliceBounds /\ (NUL ∉ raw) /\
  exists a path, Split raw "@" = [a; path] /\ string_of a ∈ actions.
Proof.
  split.
  - intros H. destruct (ParseUEvent_cases P raw) as [[Hl E]|E]; rewrite E in H.
    + exfalso. rewrite (udev_steps P raw Hl) in H.
      destruct (bool_decide _); [discriminate|]. cbv zeta in H.
      destruct (_ >=? _); [discriminate|].
      destruct (range_env _ ∅) as [envdata ok]. destruct ok; [|discriminate].
      cbn [negb] in H. destruct (bool_decide _); discriminate.
    + destruct (decide (NUL ∈ raw)) as [Hin|Hout].
      * exfalso. destruct (Split_with_sep NUL raw Hin) as (hdr & mids & last & Es).
        rewrite (native_fields _ _ _ _ Es) in H.
        destruct (Split hdr "@") as [|h0 [|h1 [|? ?]]]; try discriminate.
        destruct (bool_decide _); [|discriminate].
        destruct (range_env mids ∅) as [env ok]. destruct ok; discriminate.
      * rewrite (native_no_nul _ Hout) in H.
        destruct (Split raw "@") as [|h0 [|h1 [|? ?]]]; try discriminate.
        destruct (bool_decide (string_of h0 ∈ actions)) eqn:Ha; [|discriminate].
        apply bool_decide_eq_true in Ha. inversion H. eauto 6.
  - intros (-> & Hnul & a & path & Es & Ha).
    assert (~ ((40 < length raw)%nat /\ take 8 raw = libudev_prefix)) as Hfmt.
    { intros [Hl Hp]. apply Hnul.
      rewrite <- (take_drop 8 raw), Hp. apply elem_of_app. left. by_compute. }
    rewrite (ParseUEvent_not_udev P raw Hfmt).
    rewrite (native_no_nul _ Hnul), Es.
    rewrite bool_decide_eq_true_2 by exact Ha. reflexivity.
Qed.

(** ** Encoding and the equality check *)

Lemma bytes_of_app (s1 s2 : string) : bytes_of (s1 +:+ s2) = bytes_of s1 ++ bytes_of s2.
Proof.
  unfold bytes_of. induction s1 as [|c s1 IH]; simpl; [reflexivity|].
  rewrite IH. reflexivity.
Qed.

Lemma string_of_bytes_of (s : string) : string_of (bytes_of s) = s.
Proof. apply string_of_list_ascii_of_string. Qed.

(** The bytes of the encoding: the header and the pairs, each followed by
    NUL. *)
Lemma Bytes_with_fields (kvs : list (string * string)) (e : UEvent) :
  Bytes_with kvs e
  = spec_fields ((bytes_of (Action e) ++ "@"%char :: bytes_of (KObj e))
                 :: map (fun kv => spec_pair (bytes_of kv.1, bytes_of kv.2)) kvs).
Proof.
  unfold Bytes_with, String_with.
  assert (forall rv, bytes_of (foldl (fun rv kv => rv +:+ (kv.1 +:+ "=" +:+ kv.2 +:+ NUL_s)) rv kvs)
            = bytes_of rv ++ spec_fields (map (fun kv => spec_pair (bytes_of kv.1, bytes_of kv.2)) kvs))
    as H.
  { induction kvs as [|kv kvs IH]; intros rv; simpl.
    - unfold spec_fields. simpl. rewrite app_nil_r. reflexivity.
    - rewrite IH, !bytes_of_app. unfold spec_fields, spec_pair. simpl.
      rewrite <- !app_assoc. simpl. rewrite <- !app_assoc. reflexivity. }
  rewrite H, !bytes_of_app. unfold spec_fields. simpl.
  rewrite <- !app_assoc. simpl. rewrite <- ?app_assoc. reflexivity.
Qed.

Lemma action_bytes (a : string) :
  a ∈ actions ->
  (NUL ∉ bytes_of a) /\ ("@"%char ∉ bytes_of a) /\ head (bytes_of a) <> Some "l"%char /\
  bytes_of a <> [].
Proof.
  intros H. unfold actions in H.
  repeat (apply elem_of_cons in H as [->|H]);
    [..|apply elem_of_nil in H; contradiction];
    (repeat split; [| |discriminate|discriminate];
     intros Hc; apply (bool_decide_pack _) in Hc; vm_compute in Hc; exact Hc).
Qed.

(** Inserting pairs with distinct keys one after the other gives the map
    of the pairs. *)
Lemma foldl_insert_list_to_map (kvs : list (string * string)) (m : gmap string string) :
  NoDup kvs.*1 ->
  foldl (fun m kv => <[kv.1 := kv.2]> m) m kvs = list_to_map kvs ∪ m.
Proof.
  revert m. induction kvs as [|[k v] kvs IH]; intros m Hnd; simpl.
  - rewrite (left_id_L ∅ (∪)). reflexivity.
  - inversion Hnd as [|? ? Hk Hnd']; subst.
    rewrite IH by assumption.
    rewrite <- insert_union_l. symmetry. apply insert_union_r.
    apply not_elem_of_list_to_map_1, Hk.
Qed.

Lemma range_of_env (m : gmap string string) (kvs : list (string * string)) :
  range_of m kvs -> foldl (fun m kv => <[kv.1 := kv.2]> m) ∅ kvs = m.
Proof.
  unfold range_of. intros Hp.
  assert (NoDup kvs.*1) as Hnd.
  { rewrite Hp. apply NoDup_fst_map_to_list. }
  rewrite foldl_insert_list_to_map by assumption.
  rewrite (right_id_L ∅ (∪)).
  rewrite (list_to_map_proper kvs (map_to_list m) Hnd Hp).
  apply list_to_map_to_list.
Qed.

Lemma find_all_false {A} (f : A -> bool) (l : list A) :
  (forall x, x ∈ l -> f x = false) -> find f l = None.
Proof.
  induction l as [|a l IH]; intros H; simpl; [reflexivity|].
  rewrite (H a) by apply list_elem_of_here.
  apply IH. intros x Hx. apply H, list_elem_of_further, Hx.
Qed.

Lemma existsb_pair (m : gmap string string) (k v : string) :
  existsb (fun ie : string * string => bool_decide (ie.1 = k /\ v = ie.2)) (map_to_list m) = true
  <-> m !! k = Some v.
Proof.
  rewrite existsb_exists. split.
  - intros ([i x] & Hin & Hd). apply bool_decide_eq_true in Hd as [<- ->].
    apply elem_of_map_to_list, list_elem_of_In, Hin.
  - intros H. exists (k, v). split.
    + apply list_elem_of_In, elem_of_map_to_list, H.
    + apply bool_decide_eq_true. auto.
Qed.

(** The equality check says yes exactly when the actions, the kobject
    paths and the sizes of the environments agree and every pair of the
    first environment is in the second. *)
Lemma Equal_with_true (it : list (string * string)) (e e2 : UEvent) :
  range_of (Env e) it ->
  Equal_with it e e2 = (true, None) <->
  Action e = Action e2 /\ KObj e = KObj e2 /\ size (Env e) = size (Env e2) /\
  forall k v, Env e !! k = Some v -> Env e2 !! k = Some v.
Proof.
  intros Hit. unfold Equal_with.
  destruct (decide (Action e = Action e2)) as [Ha|Ha].
  2: { rewrite bool_decide_eq_true_2 by exact Ha. split; [discriminate|]. tauto. }
  rewrite bool_decide_eq_false_2 by tauto.
  destruct (decide (KObj e = KObj e2)) as [Hk|Hk].
  2: { rewrite bool_decide_eq_true_2 by exact Hk. split; [discriminate|]. tauto. }
  rewrite bool_decide_eq_false_2 by tauto.
  destruct (decide (size (Env e) = size (Env e2))) as [Hs|Hs].
  2: { rewrite bool_decide_eq_true_2 by exact Hs. split; [discriminate|]. tauto. }
  rewrite bool_decide_eq_false_2 by tauto.
  destruct (find _ it) as [kv|] eqn:Hf.
  - split; [discriminate|]. intros (_ & _ & _ & Hall). exfalso.
    apply find_some in Hf as [Hin Hneg].
    apply list_elem_of_In in Hin. rewrite Hit in Hin.
    destruct kv as [k v]. apply elem_of_map_to_list, Hall in Hin.
    apply existsb_pair in Hin. simpl in Hneg. rewrite Hin in Hneg. discriminate.
  - split; [|reflexivity]. intros _. repeat split; try assumption.
    intros k v Hkv. apply existsb_pair.
    assert ((k, v) ∈ it) as Hin by (rewrite Hit; apply elem_of_map_to_list, Hkv).
    apply list_elem_of_In in Hin.
    pose proof (find_none _ _ Hf _ Hin) as Hn. simpl in Hn.
    apply negb_false_iff in Hn. exact Hn.
Qed.

Lemma spec_env_of_strings (kvs : list (string * string)) (m : gmap string string) :
  foldl (fun m kv => <[string_of kv.1 := string_of kv.2]> m) m
        (map (fun kv : string * string => (bytes_of kv.1, bytes_of kv.2)) kvs)
  = foldl (fun m kv => <[kv.1 := kv.2]> m) m kvs.
Proof.
  revert m. induction kvs as [|kv kvs IH]; intros m; simpl; [reflexivity|].
  rewrite !string_of_bytes_of. apply IH.
Qed.

(** The encoding of an event with a valid action is never taken for the
    enriched format: it starts with the action, not with "libudev". *)
Lemma Bytes_with_not_udev (kvs : list (string * string)) (e : UEvent) :
  Action e ∈ actions ->
  ~ ((40 < length (Bytes_with kvs e))%nat /\ take 8 (Bytes_with kvs e) = libudev_prefix).
Proof.
  intros Ha [_ Hp]. apply action_bytes in Ha as (_ & _ & Hh & Hne).
  rewrite Bytes_with_fields in Hp. unfold spec_fields in Hp. simpl in Hp.
  destruct (bytes_of (Action e)) as [|c cs]; [congruence|].
  simpl in Hp. inversion Hp. subst c. apply Hh. reflexivity.
Qed.

(** The two ways of saying that the encoding of [e] is a native-format
    buffer are the same. *)
Lemma spec_native_event_encodes (kvs : list (string * string)) (e : UEvent) :
  range_of (Env e) kvs ->
  spec_native_event e <-> spec_encodes_native kvs e.
Proof.
  intros Hr. split.
  - intros (Ha & Hk0 & Hk1 & Henv).
    destruct (action_bytes _ Ha) as (Ha0 & Ha1 & _ & _).
    assert (forall kv, kv ∈ kvs ->
              (NUL ∉ bytes_of kv.1) /\ ("="%char ∉ bytes_of kv.1) /\
              (NUL ∉ bytes_of kv.2) /\ ("="%char ∉ bytes_of kv.2)) as Hkv.
    { intros [k v] Hin. rewrite Hr in Hin. apply elem_of_map_to_list in Hin.
      apply (Henv k v Hin). }
    split; [exact Ha|]. split; [|split].
    + rewrite Bytes_with_fields.
      set (hdr := bytes_of (Action e) ++ "@"%char :: bytes_of (KObj e)).
      set (mids := map (fun kv : string * string => spec_pair (bytes_of kv.1, bytes_of kv.2)) kvs).
      rewrite <- (app_nil_r (spec_fields (hdr :: mids))).
      apply (Split_spec_fields (hdr :: mids) []); [|apply not_elem_of_nil].
      constructor.
      * unfold hdr. rewrite elem_of_app, elem_of_cons.
        intros [H|[H|H]]; [auto|discriminate|auto].
      * unfold mids. apply Forall_map, Forall_forall. intros kv Hin.
        destruct (Hkv kv Hin) as (H1 & _ & H2 & _).
        unfold spec_pair. simpl. rewrite elem_of_app, elem_of_cons.
        intros [H|[H|H]]; [auto|discriminate|auto].
    + apply Split_two. auto.
    + apply Forall_forall. intros kv Hin.
      destruct (Hkv kv Hin) as (_ & H1 & _ & H2). apply Split_two. auto.
  - intros (Ha & Es & Eh & Ep).
    pose proof (Split_fields NUL (Bytes_with kvs e)) as HF.
    rewrite Es in HF. apply Forall_cons in HF as [Hh HF].
    apply Forall_app in HF as [HF _].
    apply Split_two in Eh as (_ & _ & Hat).
    split; [exact Ha|]. split; [|split; [exact Hat|]].
    + intros Hc. apply Hh. rewrite elem_of_app, elem_of_cons. auto.
    + intros k v Hkv. apply elem_of_map_to_list in Hkv. rewrite <- Hr in Hkv.
      rewrite Forall_map, Forall_forall in HF. specialize (HF _ Hkv).
      rewrite Forall_forall in Ep. specialize (Ep _ Hkv).
      apply Split_two in Ep as (_ & Ek & Ev). simpl in *.
      unfold spec_pair in HF. simpl in HF.
      rewrite elem_of_app, elem_of_cons in HF. tauto.
Qed.

(** C6. Let [e] be an event whose encoding is a native-format buffer: its
    action is one of the eight, its kobject path has no [@] and no NUL, its
    keys and values have no [=] and no NUL. Whatever the order in which the
    encoder visits the environment, parsing the encoding succeeds, and the
    event it gives passes the equality check against [e], whatever the order
    in which the check visits the environment: same action, same kobject
    path, same number of pairs, every pair of the one in the other. *)
Theorem encode_parse_roundtrip (P : Platform) (e : UEvent) (kvs : list (string * string)) :
  spec_native_event e -> range_of (Env e) kvs ->
  exists e', ParseUEvent P (Bytes_with kvs e) = Return (Some e', None) /\
    (forall it, range_of (Env e') it -> Equal_with it e' e = (true, None)) /\
    Action e' = Action e /\ KObj e' = KObj e /\ size (Env e') = size (Env e) /\
    (forall k v, Env e' !! k = Some v <-> Env e !! k = Some v).
Proof.
  intros Hev Hr.
  apply (spec_native_event_encodes kvs e Hr) in Hev as (Ha & Es & Eh & Ep).
  rewrite (ParseUEvent_not_udev P _ (Bytes_with_not_udev kvs e Ha)).
  rewrite (native_fields _ _ _ _ Es), Eh.
  rewrite string_of_bytes_of, bool_decide_eq_true_2 by exact Ha.
  rewrite (range_env_ok _ (map (fun kv : string * string => (bytes_of kv.1, bytes_of kv.2)) kvs)).
  2: { apply Forall2_fmap, Forall_Forall2_diag. exact Ep. }
  rewrite spec_env_of_strings, (range_of_env _ _ Hr), string_of_bytes_of.
  eexists. split; [reflexivity|]. simpl.
  split; [|repeat split; auto].
  intros it Hit. apply Equal_with_true; [exact Hit|]. simpl. auto.
Qed.

Lemma event1_native : spec_native_event event1.
Proof.
  split; [by_compute|]. split; [|split].
  - intros Hc. apply (bool_decide_pack _) in Hc. vm_compute in Hc. exact Hc.
  - intros Hc. apply (bool_decide_pack _) in Hc. vm_compute in Hc. exact Hc.
  - intros k v Hkv. unfold event1 in Hkv. simpl in Hkv.
    apply lookup_singleton_Some in Hkv as [<- <-].
    repeat split; intros Hc; apply (bool_decide_pack _) in Hc; vm_compute in Hc; exact Hc.
Qed.

Lemma encode_parse_roundtrip_witness :
  exists e', ParseUEvent linux_amd64 (Bytes_with [("DEVPATH", "/devices/foo")] event1)
             = Return (Some e', None) /\
    Equal_with [("DEVPATH", "/devices/foo")] e' event1 = (true, None).
Proof.
  assert (range_of (Env event1) [("DEVPATH", "/devices/foo")]) as Hr.
  { unfold range_of, event1. simpl. rewrite map_to_list_singleton. reflexivity. }
  destruct (encode_parse_roundtrip linux_amd64 event1 [("DEVPATH", "/devices/foo")]
              event1_native Hr) as (e' & Hp & Heq & Ha & Hk & Hs & Hl).
  exists e'. split; [exact Hp|]. apply Heq.
  assert (Env e' = Env event1) as -> by (apply map_eq; intros k; apply option_eq, Hl).
  exact Hr.
Defined.

(** ** The size probe *)

Lemma length_make (n : nat) : length (make n) = n.
Proof. apply length_replicate. Qed.

Lemma Recvfrom_length (s : Socket) (buf : bytes) (peek : bool) (n : Z) (buf' : bytes)
    (err : option error) (s' : Socket) :
  Recvfrom s buf peek = Recv n buf' err s' -> length buf' = length buf.
Proof.
  destruct s as [|[d|code] s0]; simpl; [discriminate|..]; intros [= <- <- <- <-].
  - rewrite length_app, length_take, length_drop. lia.
  - reflexivity.
Qed.

(** A probe that returns without error returns a count below the capacity
    of a buffer of whole pages. *)
Lemma msgPeek_loop_result (P : Platform) (fuel : nat) (s : Socket) (buf : bytes) (j : nat)
    (n : Z) (buf' : bytes) (s' : Socket) :
  length buf = (j * Getpagesize P)%nat ->
  msgPeek_loop P fuel s buf = Done (n, buf', None) s' ->
  n < len buf' /\ exists k, (j <= k)%nat /\ length buf' = (k * Getpagesize P)%nat.
Proof.
  revert s buf j. induction fuel as [|fuel IH]; intros s buf j Hj; simpl; [discriminate|].
  destruct (Recvfrom s buf true) as [|n0 b0 [err|] s0] eqn:ER; try discriminate.
  apply Recvfrom_length in ER.
  destruct (n0 <? len b0) eqn:Hlt.
  - intros [= <- <- <-]. apply Z.ltb_lt in Hlt. split; [exact Hlt|].
    exists j. split; [lia|congruence].
  - intros H. apply (IH _ _ (S j)) in H.
    + destruct H as (H1 & k & Hk & H2). split; [exact H1|]. exists k. split; [lia|exact H2].
    + rewrite length_make, ER, Hj. simpl. lia.
Qed.

(** With a datagram of [k-1] whole pages or more and less than [k] pages
    pending, the probe reads [k] times, into buffers of 1, 2, ..., [k] pages. *)
Lemma msgPeek_loop_datagram (P : Platform) (d : bytes) (rest : Socket) (k : nat) :
  ((k - 1) * Getpagesize P <= length d < k * Getpagesize P)%nat ->
  forall fuel j, (1 <= j <= k)%nat -> (k - j < fuel)%nat ->
  msgPeek_loop P fuel (Datagram d :: rest) (make (j * Getpagesize P))
  = Done (len d, d ++ make (k * Getpagesize P - length d), None) (Datagram d :: rest).
Proof.
  intros Hk. induction fuel as [|fuel IH]; intros j Hj Hf; [lia|].
  simpl. rewrite length_make.
  destruct (decide (j = k)) as [->|Hne].
  - replace (length d `min` (k * Getpagesize P))%nat with (length d) by lia.
    rewrite firstn_all.
    replace (_ <? _) with true.
    2: { symmetry. apply Z.ltb_lt. unfold len. rewrite length_app, length_drop, length_make. lia. }
    unfold make. rewrite drop_replicate. reflexivity.
  - assert (j * Getpagesize P <= length d)%nat as Hle by nia.
    replace (length d `min` (j * Getpagesize P))%nat with (j * Getpagesize P)%nat by lia.
    replace (_ <? _) with false.
    2: { symmetry. apply Z.ltb_ge. unfold len.
         rewrite length_app, length_take, length_drop, length_make. lia. }
    rewrite length_app, length_take, length_drop, length_make.
    replace (_ + Getpagesize P)%nat with (S j * Getpagesize P)%nat by lia.
    apply IH; lia.
Qed.

Lemma msgPeek_pages (P : Platform) (d : bytes) (rest : Socket) (k fuel : nat) :
  ((k - 1) * Getpagesize P <= length d < k * Getpagesize P)%nat ->
  (k <= fuel)%nat ->
  msgPeek P fuel (Datagram d :: rest)
  = Done (len d, d ++ make (k * Getpagesize P - length d), None) (Datagram d :: rest).
Proof.
  intros Hk Hf. unfold msgPeek.
  assert (1 <= 1 <= k)%nat as H1 by nia.
  assert (k - 1 < fuel)%nat as H2 by lia.
  pose proof (msgPeek_loop_datagram P d rest k Hk fuel 1 H1 H2) as H.
  rewrite Nat.mul_1_l in H. exact H.
Qed.

Lemma pages_of (p n : nat) :
  (0 < p)%nat -> exists k, ((k - 1) * p <= n < k * p)%nat /\ (1 <= k <= n + 1)%nat.
Proof.
  intros Hp. exists (S (n / p)).
  pose proof (Nat.div_mod_eq n p) as E.
  pose proof (Nat.mod_upper_bound n p ltac:(lia)) as Hm.
  assert (n / p <= n)%nat by (apply Nat.Div0.div_le_upper_bound; nia).
  split; [|lia]. simpl. rewrite Nat.sub_0_r. nia.
Qed.

(** With enough fuel the probe of a pending datagram returns: the count is
    the size of the datagram, the buffer holds it and is larger, and the
    datagram is still pending. *)
Lemma msgPeek_datagram (P : Platform) (fuel : nat) (d : bytes) (rest : Socket) :
  (0 < Getpagesize P)%nat -> (length d < fuel)%nat ->
  exists buf, msgPeek P fuel (Datagram d :: rest)
              = Done (len d, buf, None) (Datagram d :: rest) /\
    (length d < length buf)%nat /\ take (length d) buf = d.
Proof.
  intros Hp Hf. destruct (pages_of (Getpagesize P) (length d) Hp) as (k & Hk & Hk').
  exists (d ++ make (k * Getpagesize P - length d)). split; [|split].
  - apply (msgPeek_pages P d rest k fuel Hk). lia.
  - rewrite length_app, length_make. lia.
  - apply take_app_length.
Qed.

(** C8, as the code has it. The probe starts with a buffer of one page and
    makes it one page larger, not twice as large, each time a read fills it:
    a pending datagram of [k-1] whole pages or more and less than [k] pages
    is read [k] times and comes back in a buffer of [k] pages, with its own
    size as the count, still pending. A probe returns without error only
    with a count below the capacity of its buffer. So a datagram of exactly
    one page comes back with count one page in a buffer of two pages. *)
Theorem msgPeek_grows_by_pages (P : Platform) (d : bytes) (rest : Socket) (k fuel : nat) :
  platform_ok P ->
  ((k - 1) * Getpagesize P <= length d < k * Getpagesize P)%nat ->
  (k <= fuel)%nat ->
  msgPeek P fuel (Datagram d :: rest)
    = Done (len d, d ++ make (k * Getpagesize P - length d), None) (Datagram d :: rest) /\
  length (d ++ make (k * Getpagesize P - length d)) = (k * Getpagesize P)%nat /\
  (forall s n buf s', msgPeek P fuel s = Done (n, buf, None) s' ->
     n < len buf /\ exists j, (1 <= j)%nat /\ length buf = (j * Getpagesize P)%nat) /\
  (length d = Getpagesize P ->
     exists buf, msgPeek P fuel (Datagram d :: rest)
                 = Done (Z.of_nat (Getpagesize P), buf, None) (Datagram d :: rest) /\
       length buf = (2 * Getpagesize P)%nat /\ take (Getpagesize P) buf = d).
Proof.
  intros [_ Hp] Hk Hf.
  assert (msgPeek P fuel (Datagram d :: rest)
          = Done (len d, d ++ make (k * Getpagesize P - length d), None) (Datagram d :: rest))
    as E.
  { apply (msgPeek_pages P d rest k fuel Hk Hf). }
  split; [exact E|]. split; [rewrite length_app, length_make; lia|]. split.
  - intros s n buf s' H. unfold msgPeek in H.
    apply (msgPeek_loop_result P fuel s _ 1) in H; [exact H|].
    rewrite length_make. lia.
  - intros Hd. assert (k = 2%nat) as -> by nia.
    eexists. split; [rewrite E; unfold len; rewrite Hd; reflexivity|].
    split; [rewrite length_app, length_make; lia|].
    rewrite <- Hd. apply take_app_length.
Qed.

Lemma msgPeek_grows_by_pages_witness :
  msgPeek linux_amd64 2 [Datagram (make 4096)]
  = Done (4096, make 4096 ++ make (2 * 4096 - 4096), None) [Datagram (make 4096)].
Proof.
  destruct (msgPeek_grows_by_pages linux_amd64 (make 4096) [] 2 2) as (E & _).
  - exact linux_amd64_ok.
  - rewrite length_make. simpl. lia.
  - lia.
  - rewrite length_make in E. exact E.
Defined.

(** C8 as the specification words it fails where it says that the buffer
    doubles: a datagram of two pages fills the buffers of one and of two
    pages; the third buffer has three pages, not four. *)
Lemma msgPeek_not_doubling :
  exists buf, msgPeek linux_amd64 3 two_pages = Done (8192, buf, None) two_pages /\
    length buf = (3 * 4096)%nat /\ length buf <> (4 * 4096)%nat.
Proof.
  exists (make (3 * 4096)). split; [vm_compute; reflexivity|].
  rewrite length_make. split; [reflexivity|discriminate].
Qed.

(** ** The destructive read *)

Lemma slice_take {A} (b : list A) (n : nat) :
  (n <= length b)%nat -> slice b 0 (Z.of_nat n) = Return (take n b).
Proof.
  intros H. rewrite slice_ok by (unfold len; lia).
  rewrite Z.sub_0_r, Nat2Z.id. reflexivity.
Qed.

Lemma msgRead_datagram (d : bytes) (rest : Socket) (b : bytes) :
  msgRead (Datagram d :: rest) (Some b)
  = Done (Some (take (length d `min` length b) d), None) rest.
Proof.
  unfold msgRead, Recvfrom.
  rewrite slice_take by (rewrite length_app, length_take, length_drop; lia).
  rewrite take_app_le by (rewrite length_take; lia).
  rewrite take_take. do 3 f_equal. f_equal. lia.
Qed.

(** [ReadMsg] gives one whole datagram and takes it off the socket. *)
Lemma ReadMsg_datagram (P : Platform) (fuel : nat) (d : bytes) (rest : Socket) :
  (0 < Getpagesize P)%nat -> (length d < fuel)%nat ->
  ReadMsg P fuel (Datagram d :: rest) = Done (d, None) rest.
Proof.
  intros Hp Hf. unfold ReadMsg.
  destruct (msgPeek_datagram P fuel d rest Hp Hf) as (buf & -> & Hl & _).
  rewrite msgRead_datagram.
  replace (length d `min` length buf)%nat with (length d) by lia.
  rewrite firstn_all. reflexivity.
Qed.

(** C10, as the code has it. [msgRead] fails with the empty-buffer error
    on a nil pointer, and with the error of the read when the read fails. On
    every other buffer, one of length zero too, the read is made, and when
    it succeeds the buffer is cut to the number of bytes it returned: the
    first [min(len(d), len(b))] bytes of the datagram. *)
Theorem msgRead_spec (s : Socket) (b : bytes) :
  msgRead s None = Done (None, Some ErrEmptyBuffer) s /\
  (forall code rest, s = SockErr code :: rest ->
     msgRead s (Some b) = Done (Some b, Some (Errno code)) rest) /\
  (forall d rest, s = Datagram d :: rest ->
     Recvfrom s b false
       = Recv (Z.of_nat (length d `min` length b))
              (take (length d `min` length b) d ++ drop (length d `min` length b) b)
              None rest /\
     msgRead s (Some b) = Done (Some (take (length d `min` length b) d), None) rest /\
     length (take (length d `min` length b) d) = (length d `min` length b)%nat) /\
  (forall d rest, s = Datagram d :: rest ->
     msgRead s (Some []) = Done (Some [], None) rest).
Proof.
  split; [reflexivity|]. split; [|split].
  - intros code rest ->. reflexivity.
  - intros d rest ->. split; [reflexivity|]. split; [apply msgRead_datagram|].
    rewrite length_take. lia.
  - intros d rest ->. rewrite msgRead_datagram. simpl.
    rewrite Nat.min_0_r. reflexivity.
Qed.

Lemma msgRead_spec_witness :
  msgRead [Datagram scenario1] (Some (make 4096)) = Done (Some scenario1, None) [].
Proof.
  destruct (msgRead_spec [Datagram scenario1] (make 4096)) as (_ & _ & Hd & _).
  destruct (Hd scenario1 [] eq_refl) as (_ & Hr & _).
  rewrite Hr. vm_compute. reflexivity.
Defined.

(** C10 as the specification words it fails where it says that a buffer
    of length zero is an error: the read is made, returns no byte, takes the
    datagram off the socket, and [msgRead] returns no error. *)
Lemma msgRead_zero_length_buffer :
  msgRead [Datagram scenario1] (Some []) = Done (Some [], None) [].
Proof. reflexivity. Qed.

(** ** The monitor loop *)

Section Monitor.
Variable P : Platform.
Variable c : UEventConn.
Variable matcher : option Matcher.
Variable fuel : nat.
Hypothesis pagesize_pos : (0 < Getpagesize P)%nat.

(** The [default] branch with a datagram pending: the probe puts a buffer
    larger than the datagram on [bufToRead]. *)
Lemma turn_peek (d : bytes) (rest : Socket) (cnt : Z) (q : list UEvent)
    (es : list error) (quit_coin : bool) :
  (length d < fuel)%nat ->
  exists buf, (length d < length buf)%nat /\
    loop_turn P c matcher fuel false quit_coin
      (mkWorker (Datagram d :: rest) None cnt q es)
    = Continue (mkWorker (Datagram d :: rest) (Some (Some buf)) cnt q es).
Proof.
  intros Hf.
  destruct (msgPeek_datagram P fuel d rest pagesize_pos Hf) as (buf & E & Hl & _).
  exists buf. split; [exact Hl|].
  unfold loop_turn, on_default. simpl. rewrite E. reflexivity.
Qed.

(** The [bufToRead] branch with the datagram still pending: the read gives
    the datagram, and the parser decides. *)
Lemma turn_read (d buf : bytes) (rest : Socket) (cnt : Z) (q : list UEvent)
    (es : list error) (quit_coin : bool) :
  (length d <= length buf)%nat ->
  loop_turn P c matcher fuel false quit_coin
    (mkWorker (Datagram d :: rest) (Some (Some buf)) cnt q es)
  = match ParseUEvent P d with
    | Panic p => Crashed p
    | Return (_, Some err) =>
        Continue (mkWorker rest None cnt q (es ++ [ErrUnableToParse err]))
    | Return (None, None) => Crashed NilDereference
    | Return (Some uevent, None) =>
        if accepted matcher uevent then
          if (MatchedUEventLimit c >? 0) && (cnt + 1 >=? MatchedUEventLimit c)
          then Break (mkWorker rest None (cnt + 1) (q ++ [uevent]) es)
          else Continue (mkWorker rest None (cnt + 1) (q ++ [uevent]) es)
        else Continue (mkWorker rest None cnt q es)
    end.
Proof.
  intros Hl. unfold loop_turn, on_buf.
  cbn [bufToRead sock count queue errs andb].
  rewrite msgRead_datagram.
  replace (length d `min` length buf)%nat with (length d) by lia.
  rewrite firstn_all. cbn [default from_option id].
  destruct (ParseUEvent P d) as [[[e|] [err|]]|p]; try reflexivity.
  unfold accepted. destruct matcher as [m|]; [|reflexivity].
  destruct (Evaluate m e); reflexivity.
Qed.

(** Two turns take one pending datagram through the probe and the read. *)
Lemma worker_datagram (d : bytes) (rest : Socket) (cnt : Z) (q : list UEvent)
    (es : list error) (turns : nat) :
  (length d < fuel)%nat ->
  worker P c matcher fuel (S (S turns)) [] (mkWorker (Datagram d :: rest) None cnt q es)
  = match ParseUEvent P d with
    | Panic p => Crashed p
    | Return (_, Some err) =>
        worker P c matcher fuel turns []
          (mkWorker rest None cnt q (es ++ [ErrUnableToParse err]))
    | Return (None, None) => Crashed NilDereference
    | Return (Some uevent, None) =>
        if accepted matcher uevent then
          if (MatchedUEventLimit c >? 0) && (cnt + 1 >=? MatchedUEventLimit c)
          then Break (mkWorker rest None (cnt + 1) (q ++ [uevent]) es)
          else worker P c matcher fuel turns []
                 (mkWorker rest None (cnt + 1) (q ++ [uevent]) es)
        else worker P c matcher fuel turns [] (mkWorker rest None cnt q es)
    end.
Proof.
  intros Hf. destruct (turn_peek d rest cnt q es false Hf) as (buf & Hl & E).
  cbn [worker head tail default]. rewrite E.
  rewrite (turn_read d buf rest cnt q es false) by lia.
  destruct (ParseUEvent P d) as [[[e|] [err|]]|p]; try reflexivity.
  destruct (accepted matcher e); [|reflexivity].
  destruct ((MatchedUEventLimit c >? 0) && (cnt + 1 >=? MatchedUEventLimit c)); reflexivity.
Qed.

(** With nothing pending the worker waits in the probe. *)
Lemma worker_waits (cnt : Z) (q : list UEvent) (es : list error) (turns : nat) :
  (0 < fuel)%nat ->
  worker P c matcher fuel (S turns) [] (mkWorker [] None cnt q es)
  = Waits (mkWorker [] None cnt q es).
Proof.
  intros Hf. destruct fuel as [|f]; [lia|]. reflexivity.
Qed.
End Monitor.

Lemma limit_not_reached (limit : Z) :
  limit <= 0 \/ 2 <= limit -> (limit >? 0) && (0 + 1 >=? limit) = false.
Proof.
  intros H. destruct (limit >? 0) eqn:E1; [|reflexivity].
  destruct (0 + 1 >=? limit) eqn:E2; [|reflexivity].
  apply Z.gtb_lt in E1. rewrite Z.geb_leb in E2. apply Z.leb_le in E2. lia.
Qed.

(** Datagrams that the parser answers with an error value. In the loop,
    with no stop signal: a datagram on which [ParseUEvent] returns an error
    puts that one error on the error stream and the loop goes on, the
    counter and the queue as they were; an error of the read, or of the
    size probe, puts the error on the error stream and ends the loop. So
    with a valid datagram, one that the parser answers with an error and a
    valid one pending, and a limit that the first event does not reach, the
    worker delivers the events of the two valid datagrams that the matcher
    lets through, in order, counts them, and puts exactly one error on the
    error stream; it then waits for the next datagram, or has stopped at
    the limit. The hypothesis on the middle datagram leaves out the
    datagrams on which the parser panics; those are the subject of the
    theorem that follows. *)
Theorem monitor_parse_failure_recoverable (P : Platform) (c : UEventConn)
    (matcher : option Matcher) (fuel : nat) (d1 bad d2 : bytes) (e1 e2 : UEvent)
    (xe : option UEvent) (err : error) :
  platform_ok P ->
  (length d1 < fuel)%nat -> (length bad < fuel)%nat -> (length d2 < fuel)%nat ->
  ParseUEvent P d1 = Return (Some e1, None) ->
  ParseUEvent P bad = Return (xe, Some err) ->
  ParseUEvent P d2 = Return (Some e2, None) ->
  (forall buf rest cnt q es, (length bad <= length buf)%nat ->
     loop_turn P c matcher fuel false false
       (mkWorker (Datagram bad :: rest) (Some (Some buf)) cnt q es)
     = Continue (mkWorker rest None cnt q (es ++ [ErrUnableToParse err]))) /\
  (forall code buf rest cnt q es,
     loop_turn P c matcher fuel false false
       (mkWorker (SockErr code :: rest) (Some (Some buf)) cnt q es)
     = Break (mkWorker rest None cnt q (es ++ [ErrUnableToRead (Errno code)]))) /\
  (forall code rest cnt q es,
     loop_turn P c matcher fuel false false
       (mkWorker (SockErr code :: rest) None cnt q es)
     = Break (mkWorker rest None cnt q (es ++ [ErrUnableToCheck (Errno code)]))) /\
  (MatchedUEventLimit c <= 0 \/ 2 <= MatchedUEventLimit c \/
   accepted matcher e1 = false ->
   exists w,
     (worker P c matcher fuel 7 []
        (mkWorker [Datagram d1; Datagram bad; Datagram d2] None 0 [] []) = Waits w \/
      worker P c matcher fuel 7 []
        (mkWorker [Datagram d1; Datagram bad; Datagram d2] None 0 [] []) = Break w) /\
     queue w = List.filter (accepted matcher) [e1; e2] /\
     count w = len (queue w) /\
     errs w = [ErrUnableToParse err] /\
     sock w = []).
Proof.
  intros [_ Hp] Hf1 Hfb Hf2 E1 Eb E2.
  split; [|split; [|split]].
  - intros buf rest cnt q es Hl.
    rewrite (turn_read P c matcher fuel Hp bad buf rest cnt q es false Hl), Eb.
    destruct xe; reflexivity.
  - intros code buf rest cnt q es. reflexivity.
  - intros code rest cnt q es. unfold loop_turn, on_default, msgPeek.
    destruct fuel as [|f]; [lia|]. reflexivity.
  - intros Hlim.
    change 7%nat with (S (S 5)).
    rewrite (worker_datagram P c matcher fuel Hp d1 _ 0 [] [] 5 Hf1), E1.
    assert (forall cnt q,
      exists w,
        (worker P c matcher fuel 5 [] (mkWorker [Datagram bad; Datagram d2] None cnt q [])
           = Waits w \/
         worker P c matcher fuel 5 [] (mkWorker [Datagram bad; Datagram d2] None cnt q [])
           = Break w) /\
        queue w = q ++ List.filter (accepted matcher) [e2] /\
        count w = cnt + len (List.filter (accepted matcher) [e2]) /\
        errs w = [ErrUnableToParse err] /\ sock w = []) as Hrest.
    { intros cnt q. change 5%nat with (S (S 3)).
      rewrite (worker_datagram P c matcher fuel Hp bad _ cnt q [] 3 Hfb), Eb.
      replace (match xe with
               | Some _ => _
               | None => _
               end)
        with (worker P c matcher fuel 3 []
                (mkWorker [Datagram d2] None cnt q ([] ++ [ErrUnableToParse err])))
        by (destruct xe; reflexivity).
      change 3%nat with (S (S 1)).
      rewrite (worker_datagram P c matcher fuel Hp d2 _ cnt q _ 1 Hf2), E2.
      simpl List.filter. destruct (accepted matcher e2).
      - destruct ((MatchedUEventLimit c >? 0) && (cnt + 1 >=? MatchedUEventLimit c)).
        + eexists. split; [right; reflexivity|]. simpl. auto.
        + rewrite (worker_waits P c matcher fuel Hp) by lia.
          eexists. split; [left; reflexivity|]. simpl. auto.
      - rewrite (worker_waits P c matcher fuel Hp) by lia.
        eexists. split; [left; reflexivity|]. simpl.
        rewrite app_nil_r. repeat split. unfold len. simpl. lia. }
    simpl List.filter. destruct (accepted matcher e1) eqn:A1.
    + rewrite limit_not_reached by (destruct Hlim as [H|[H|H]]; [auto|auto|discriminate]).
      destruct (Hrest (0 + 1) ([] ++ [e1])) as (w & Hw & Hq & Hc & He & Hs).
      exists w. split; [exact Hw|]. rewrite Hq, Hc.
      repeat split; try assumption;
        unfold len; simpl; destruct (accepted matcher e2); simpl; lia.
    + destruct (Hrest 0 []) as (w & Hw & Hq & Hc & He & Hs).
      exists w. split; [exact Hw|]. rewrite Hq, Hc.
      repeat split; try assumption;
        unfold len; simpl; destruct (accepted matcher e2); simpl; lia.
Qed.

Lemma monitor_parse_failure_recoverable_witness :
  exists w,
    worker linux_amd64 (mkUEventConn 3 0) None 100 7 []
      (mkWorker [Datagram scenario1; Datagram malformed; Datagram scenario_remove]
                None 0 [] []) = Waits w /\
    queue w = [event1; event_remove] /\
    errs w = [ErrUnableToParse ErrWrongHeader].
Proof.
  destruct (monitor_parse_failure_recoverable linux_amd64 (mkUEventConn 3 0) None 100
              scenario1 malformed scenario_remove event1 event_remove None ErrWrongHeader)
    as (_ & _ & _ & Hrun).
  - exact linux_amd64_ok.
  - vm_compute. lia.
  - vm_compute. lia.
  - vm_compute. lia.
  - apply scenario1_parses.
  - vm_compute. reflexivity.
  - vm_compute. reflexivity.
  - destruct Hrun as (w & [Hw|Hw] & Hq & _ & He & _); [left; simpl; lia| |].
    + exists w. auto.
    + exfalso. vm_compute in Hw. discriminate.
Defined.

(** C9. The loop does not get over every datagram that fails to parse.
    With the valid datagram of scenario 1, the malformed datagram
    [add@/devices/foo] (a header and no NUL byte) and a valid [remove]
    datagram pending, no stop signal, and a limit that the first event does
    not reach: [ParseUEvent] panics on the malformed datagram, the worker
    has no [recover], and the run ends in that panic. So the run reaches no
    state of the worker, waiting or stopped: no entry was put on the error
    stream for the malformed datagram, and the event of the datagram behind
    it is never delivered. The panic is the one of C7, met inside the
    worker. *)
Theorem monitor_crashes_on_malformed_datagram (P : Platform) (c : UEventConn)
    (matcher : option Matcher) (fuel turns : nat) :
  platform_ok P -> (length scenario1 < fuel)%nat ->
  MatchedUEventLimit c <= 0 \/ 2 <= MatchedUEventLimit c \/
    accepted matcher event1 = false ->
  ParseUEvent P scenario1 = Return (Some event1, None) /\
  ParseUEvent P scenario_remove = Return (Some event_remove, None) /\
  ParseUEvent P header_only = Panic SliceBounds /\
  worker P c matcher fuel (S (S (S (S turns)))) []
    (mkWorker [Datagram scenario1; Datagram header_only; Datagram scenario_remove]
              None 0 [] [])
  = Crashed SliceBounds /\
  (forall w,
     worker P c matcher fuel (S (S (S (S turns)))) []
       (mkWorker [Datagram scenario1; Datagram header_only; Datagram scenario_remove]
                 None 0 [] []) <> Waits w /\
     worker P c matcher fuel (S (S (S (S turns)))) []
       (mkWorker [Datagram scenario1; Datagram header_only; Datagram scenario_remove]
                 None 0 [] []) <> Break w).
Proof.
  intros [_ Hp] Hf Hlim.
  assert (ParseUEvent P header_only = Panic SliceBounds) as Eh.
  { apply ParseUEvent_panics_iff. split; [reflexivity|]. split.
    - intros Hc. apply (bool_decide_pack _) in Hc. vm_compute in Hc. exact Hc.
    - exists (bytes_of "add"), (bytes_of "/devices/foo").
      split; [vm_compute; reflexivity|by_compute]. }
  assert (length header_only < fuel)%nat as Hfh
    by (assert (length header_only <= length scenario1)%nat
          by (vm_compute; lia); lia).
  assert (forall cnt q,
    worker P c matcher fuel (S (S turns)) []
      (mkWorker [Datagram header_only; Datagram scenario_remove] None cnt q [])
    = Crashed SliceBounds) as Hrest.
  { intros cnt q.
    rewrite (worker_datagram P c matcher fuel Hp header_only _ cnt q [] turns Hfh), Eh.
    reflexivity. }
  assert (worker P c matcher fuel (S (S (S (S turns)))) []
            (mkWorker [Datagram scenario1; Datagram header_only; Datagram scenario_remove]
                      None 0 [] [])
          = Crashed SliceBounds) as Hrun.
  { rewrite (worker_datagram P c matcher fuel Hp scenario1 _ 0 [] [] (S (S turns)) Hf).
    rewrite (scenario1_parses P). fold event1.
    destruct (accepted matcher event1) eqn:A1.
    - rewrite limit_not_reached
        by (destruct Hlim as [H|[H|H]]; [auto|auto|discriminate]).
      apply Hrest.
    - apply Hrest. }
  split; [apply scenario1_parses|].
  split; [vm_compute; reflexivity|].
  split; [exact Eh|]. split; [exact Hrun|].
  intros w. rewrite Hrun. split; discriminate.
Qed.

Lemma monitor_crashes_on_malformed_datagram_witness :
  worker linux_amd64 (mkUEventConn 3 0) None 100 7 []
    (mkWorker [Datagram scenario1; Datagram header_only; Datagram scenario_remove]
              None 0 [] [])
  = Crashed SliceBounds.
Proof.
  destruct (monitor_crashes_on_malformed_datagram linux_amd64 (mkUEventConn 3 0) None
              100 3) as (_ & _ & _ & Hrun & _).
  - exact linux_amd64_ok.
  - vm_compute. lia.
  - left. simpl. lia.
  - exact Hrun.
Defined.

(** * More of the package *)

(** ** The equality check *)

(** X1. [Equal] says yes exactly when the two events are the same: same
    action, same kobject path, same environment. One direction of the loop
    is enough because the sizes are compared first. *)
Theorem Equal_iff_eq (it : list (string * string)) (e e2 : UEvent) :
  range_of (Env e) it ->
  Equal_with it e e2 = (true, None) <-> e = e2.
Proof.
  intros Hit. rewrite (Equal_with_true it e e2 Hit). split.
  - intros (Ha & Hk & Hs & Hall).
    assert (Env e = Env e2) as He.
    { apply map_subseteq_size_eq; [|lia]. apply map_subseteq_spec. exact Hall. }
    destruct e, e2. simpl in *. congruence.
  - intros <-. auto.
Qed.

Lemma Equal_iff_eq_witness :
  Equal_with [("DEVPATH", "/devices/foo")] event1 event1 = (true, None).
Proof.
  apply (Equal_iff_eq [("DEVPATH", "/devices/foo")] event1 event1).
  - unfold range_of, event1. simpl. rewrite map_to_list_singleton. reflexivity.
  - reflexivity.
Defined.

(** X2. When [Equal] says no, the error names a real difference, and the
    first one in the order action, kobject path, number of pairs, pair: a
    pair reported as not found is in the first environment and not in the
    second. *)
Theorem Equal_error_sound (it : list (string * string)) (e e2 : UEvent)
    (b : bool) (err : error) :
  range_of (Env e) it ->
  Equal_with it e e2 = (b, Some err) ->
  b = false /\
  ((err = ErrWrongAction (Action e) (Action e2) /\ Action e <> Action e2) \/
   (err = ErrWrongKObj (KObj e) (KObj e2) /\
      Action e = Action e2 /\ KObj e <> KObj e2) \/
   (err = ErrWrongEnvLength (Z.of_nat (size (Env e))) (Z.of_nat (size (Env e2))) /\
      Action e = Action e2 /\ KObj e = KObj e2 /\ size (Env e) <> size (Env e2)) \/
   (exists k v, err = ErrEnvNotFound k v /\
      Action e = Action e2 /\ KObj e = KObj e2 /\ size (Env e) = size (Env e2) /\
      Env e !! k = Some v /\ Env e2 !! k <> Some v)).
Proof.
  intros Hit. unfold Equal_with.
  destruct (decide (Action e = Action e2)) as [Ha|Ha].
  2: { rewrite bool_decide_eq_true_2 by exact Ha. intros [= <- <-].
       split; [reflexivity|]. left. auto. }
  rewrite bool_decide_eq_false_2 by tauto.
  destruct (decide (KObj e = KObj e2)) as [Hk|Hk].
  2: { rewrite bool_decide_eq_true_2 by exact Hk. intros [= <- <-].
       split; [reflexivity|]. right. left. auto. }
  rewrite bool_decide_eq_false_2 by tauto.
  destruct (decide (size (Env e) = size (Env e2))) as [Hs|Hs].
  2: { rewrite bool_decide_eq_true_2 by exact Hs. intros [= <- <-].
       split; [reflexivity|]. right. right. left. auto. }
  rewrite bool_decide_eq_false_2 by tauto.
  destruct (find _ it) as [[k v]|] eqn:Hf; [|discriminate].
  intros [= <- <-]. split; [reflexivity|]. right. right. right.
  exists k, v. apply find_some in Hf as [Hin Hneg]. simpl in Hneg.
  apply list_elem_of_In in Hin. rewrite Hit in Hin. apply elem_of_map_to_list in Hin.
  repeat split; try assumption.
  intros Hc. apply existsb_pair in Hc. rewrite Hc in Hneg. discriminate.
Qed.

Lemma Equal_error_sound_witness :
  Equal_with [("DEVPATH", "/devices/foo")] event1 event_remove
  = (false, Some (ErrWrongAction ADD REMOVE)).
Proof.
  assert (range_of (Env event1) [("DEVPATH", "/devices/foo")]) as Hr.
  { unfold range_of, event1. simpl. rewrite map_to_list_singleton. reflexivity. }
  destruct (Equal_with [("DEVPATH", "/devices/foo")] event1 event_remove) as [b [err|]] eqn:E.
  - destruct (Equal_error_sound _ _ _ b err Hr E) as (-> & [[-> _]|[[_ [Hc _]]|[[_ [Hc _]]|(k & v & _ & Hc & _)]]]);
      [reflexivity|discriminate..].
  - vm_compute in E. discriminate.
Defined.

(** ** What [ParseUEvent] returns *)

Lemma libudev_prefix_split (raw : bytes) :
  take 8 raw = libudev_prefix ->
  raw = bytes_of "libudev" ++ NUL :: drop 8 raw.
Proof.
  intros H. rewrite <- (take_drop 8 raw) at 1. rewrite H.
  unfold libudev_prefix. rewrite <- app_assoc. reflexivity.
Qed.

(** X3. [ParseUEvent] returns on every buffer that holds a NUL byte, so
    on every buffer of the enriched format. On a buffer without NUL byte it
    panics, with the slice-bounds panic, when the whole buffer is a header
    [action@path] with one of the eight actions, and returns an error and
    no event when it is not. *)
Theorem ParseUEvent_panics_exactly (P : Platform) (raw : bytes) :
  (NUL ∈ raw -> exists r, ParseUEvent P raw = Return r) /\
  ((NUL ∉ raw) ->
     (exists a path, Split raw "@" = [a; path] /\ string_of a ∈ actions) ->
     ParseUEvent P raw = Panic SliceBounds) /\
  ((NUL ∉ raw) ->
     ~ (exists a path, Split raw "@" = [a; path] /\ string_of a ∈ actions) ->
     exists err, ParseUEvent P raw = Return (None, Some err)).
Proof.
  split; [|split].
  - intros Hin. destruct (ParseUEvent P raw) as [r|p] eqn:E; [eauto|].
    apply ParseUEvent_panics_iff in E as (_ & Hnul & _). contradiction.
  - intros Hnul Hh. apply ParseUEvent_panics_iff. auto.
  - intros Hnul Hh.
    assert (~ ((40 < length raw)%nat /\ take 8 raw = libudev_prefix)) as Hfmt.
    { intros [_ Hp]. apply Hnul. rewrite (libudev_prefix_split raw Hp).
      rewrite elem_of_app, elem_of_cons. auto. }
    rewrite (ParseUEvent_not_udev P raw Hfmt), (native_no_nul raw Hnul).
    destruct (Split raw "@") as [|h0 [|h1 [|? ?]]]; eauto.
    destruct (bool_decide (string_of h0 ∈ actions)) eqn:Ha; [|eauto].
    exfalso. apply Hh. apply bool_decide_eq_true in Ha. eauto.
Qed.

Lemma ParseUEvent_panics_exactly_witness :
  (exists r, ParseUEvent linux_amd64 trailing_garbage = Return r) /\
  ParseUEvent linux_amd64 header_only = Panic SliceBounds /\
  exists err, ParseUEvent linux_amd64 malformed = Return (None, Some err).
Proof.
  split; [|split].
  - apply (ParseUEvent_panics_exactly linux_amd64 trailing_garbage). by_compute.
  - apply (ParseUEvent_panics_exactly linux_amd64 header_only).
    + intros Hc. apply (bool_decide_pack _) in Hc. vm_compute in Hc. exact Hc.
    + exists (bytes_of "add"), (bytes_of "/devices/foo").
      split; [vm_compute; reflexivity|by_compute].
  - apply (ParseUEvent_panics_exactly linux_amd64 malformed).
    + intros Hc. apply (bool_decide_pack _) in Hc. vm_compute in Hc. exact Hc.
    + intros (a & path & Hs & _). vm_compute in Hs. discriminate.
Defined.

Lemma native_result_shape (raw : bytes) (oe : option UEvent) (oerr : option error) :
  ParseUEvent_native raw = Return (oe, oerr) ->
  (oerr = None -> is_Some oe) /\
  (forall e er, oe = Some e -> oerr = Some er -> er = ErrWrongEnv).
Proof.
  destruct (decide (NUL ∈ raw)) as [Hin|Hout].
  - destruct (Split_with_sep NUL raw Hin) as (hdr & mids & last & E).
    rewrite (native_fields _ _ _ _ E).
    destruct (Split hdr "@") as [|h0 [|h1 [|? ?]]];
      try (intros [= <- <-]; split; [discriminate|intros; discriminate]).
    destruct (bool_decide (string_of h0 ∈ actions)).
    + destruct (range_env mids ∅) as [env ok].
      destruct ok; intros [= <- <-]; (split; [eauto|intros ? ? _ ?; congruence]).
    + intros [= <- <-]; split; [discriminate|intros; discriminate].
  - rewrite (native_no_nul _ Hout).
    destruct (Split raw "@") as [|h0 [|h1 [|? ?]]];
      try (intros [= <- <-]; split; [discriminate|intros; discriminate]).
    destruct (bool_decide (string_of h0 ∈ actions)); [discriminate|].
    intros [= <- <-]; split; [discriminate|intros; discriminate].
Qed.

Lemma udev_result_shape (P : Platform) (raw : bytes) (oe : option UEvent)
    (oerr : option error) :
  (40 < length raw)%nat ->
  parseUdevEvent P raw = Return (oe, oerr) ->
  (oerr = None -> is_Some oe) /\ (forall e er, oe = Some e -> oerr = Some er -> False).
Proof.
  intros Hl. rewrite (udev_steps P raw Hl).
  destruct (bool_decide _).
  { intros [= <- <-]; split; [discriminate|intros; discriminate]. }
  cbv zeta. destruct (_ >=? _).
  { intros [= <- <-]; split; [discriminate|intros; discriminate]. }
  destruct (range_env _ ∅) as [envdata ok]. destruct ok; cbn [negb].
  2: { intros [= <- <-]; split; [discriminate|intros; discriminate]. }
  destruct (bool_decide _); intros [= <- <-].
  - split; [eauto|intros; discriminate].
  - split; [discriminate|intros; discriminate].
Qed.

(** X4. [ParseUEvent] never returns neither an event nor an error, so a
    caller that finds no error may use the event. It returns an event
    together with an error in one case only: the native format, with the
    environment error. The enriched parser returns one or the other. *)
Theorem ParseUEvent_result_shape (P : Platform) (raw : bytes) (oe : option UEvent)
    (oerr : option error) :
  ParseUEvent P raw = Return (oe, oerr) ->
  (oerr = None -> exists e, oe = Some e) /\
  (forall e er, oe = Some e -> oerr = Some er ->
     er = ErrWrongEnv /\ ~ ((40 < length raw)%nat /\ take 8 raw = libudev_prefix)).
Proof.
  intros H.
  destruct (decide ((40 < length raw)%nat /\ take 8 raw = libudev_prefix)) as [[H1 H2]|Hn].
  - rewrite (ParseUEvent_udev P raw H1 H2) in H.
    destruct (udev_result_shape P raw oe oerr H1 H) as [Ha Hb]. split.
    + intros E. destruct (Ha E) as [e ->]. eauto.
    + intros e er E1 E2. destruct (Hb e er E1 E2).
  - rewrite (ParseUEvent_not_udev P raw Hn) in H.
    destruct (native_result_shape raw oe oerr H) as [Ha Hb]. split.
    + intros E. destruct (Ha E) as [e ->]. eauto.
    + intros e er E1 E2. split; [apply (Hb e er E1 E2)|exact Hn].
Qed.

Lemma ParseUEvent_result_shape_witness : exists e, Some event1 = Some e.
Proof.
  destruct (ParseUEvent_result_shape linux_amd64 scenario1 (Some event1) None) as [H _].
  - apply scenario1_parses.
  - apply H. reflexivity.
Defined.

Lemma range_env_stops (good : list bytes) (bad : bytes) (rest : list bytes)
    (kvs : list (bytes * bytes)) (m : gmap string string) :
  Forall2 (fun f kv => Split f "=" = [kv.1; kv.2]) good kvs ->
  ~ two_parts "=" bad ->
  range_env (good ++ bad :: rest) m
  = (foldl (fun m kv => <[string_of kv.1 := string_of kv.2]> m) m kvs, false).
Proof.
  intros H Hbad. revert m. induction H as [|f kv good kvs Hf _ IH]; intros m.
  - simpl. unfold two_parts in Hbad.
    destruct (Split bad "=") as [|k [|v [|? ?]]]; try reflexivity.
    exfalso. apply Hbad. reflexivity.
  - simpl. rewrite Hf. apply IH.
Qed.

(** X5. When a field of the native environment does not split on [=] into
    two parts, the native parser returns the environment error together
    with an event: the action and the kobject path of the header, and the
    pairs of the fields before the first bad one. The fields behind it are
    not looked at. *)
Theorem native_partial_event (P : Platform) (raw hdr a p : bytes)
    (good : list bytes) (bad : bytes) (rest : list bytes) (last : bytes)
    (kvs : list (bytes * bytes)) :
  ~ ((40 < length raw)%nat /\ take 8 raw = libudev_prefix) ->
  Split raw NUL = hdr :: (good ++ bad :: rest) ++ [last] ->
  Split hdr "@" = [a; p] -> string_of a ∈ actions ->
  Forall2 (fun f kv => Split f "=" = [kv.1; kv.2]) good kvs ->
  ~ two_parts "=" bad ->
  ParseUEvent P raw
  = Return (Some (mkUEvent (string_of a) (string_of p) (spec_env kvs)),
            Some ErrWrongEnv).
Proof.
  intros Hfmt Es Eh Ha Hk Hbad.
  rewrite (ParseUEvent_not_udev P raw Hfmt), (native_fields _ _ _ _ Es), Eh.
  rewrite bool_decide_eq_true_2 by exact Ha.
  rewrite (range_env_stops good bad rest kvs ∅ Hk Hbad). reflexivity.
Qed.

Lemma native_partial_event_witness :
  ParseUEvent linux_amd64
    (spec_fields [bytes_of "add@/a"; bytes_of "K=v"; bytes_of "garbage"; bytes_of "L=w"])
  = Return (Some (mkUEvent "add" "/a" (spec_env [(bytes_of "K", bytes_of "v")])),
            Some ErrWrongEnv).
Proof.
  apply (native_partial_event linux_amd64 _ (bytes_of "add@/a") (bytes_of "add")
           (bytes_of "/a") [bytes_of "K=v"] (bytes_of "garbage") [bytes_of "L=w"] []
           [(bytes_of "K", bytes_of "v")]).
  - vm_compute. intros Hc. destruct Hc as [Hl Hr]. lia.
  - vm_compute. reflexivity.
  - vm_compute. reflexivity.
  - by_compute.
  - repeat constructor.
  - vm_compute. discriminate.
Defined.

(** ** The environment that the parsers build *)

Lemma bytes_of_string_of (b : bytes) : bytes_of (string_of b) = b.
Proof. apply list_ascii_of_string_of_list_ascii. Qed.

Lemma spec_env_snoc (kvs : list (bytes * bytes)) (kv : bytes * bytes) :
  spec_env (kvs ++ [kv]) = <[string_of kv.1 := string_of kv.2]> (spec_env kvs).
Proof. unfold spec_env. rewrite foldl_snoc. reflexivity. Qed.

Lemma spec_env_lookup_Some (kvs : list (bytes * bytes)) (k v : string) :
  spec_env kvs !! k = Some v ->
  exists kv, kv ∈ kvs /\ string_of kv.1 = k /\ string_of kv.2 = v.
Proof.
  induction kvs as [|kv kvs IH] using rev_ind.
  - unfold spec_env. simpl. rewrite lookup_empty. discriminate.
  - rewrite spec_env_snoc.
    destruct (decide (string_of kv.1 = k)) as [E|E].
    + rewrite E, lookup_insert_eq. intros [= <-]. exists kv.
      rewrite elem_of_app, list_elem_of_singleton. auto.
    + rewrite lookup_insert_ne by exact E. intros H.
      destruct (IH H) as (kv' & Hin & H1 & H2). exists kv'.
      rewrite elem_of_app. auto.
Qed.

Lemma spec_env_lookup_None (kvs : list (bytes * bytes)) (k : string) :
  (forall kv, kv ∈ kvs -> string_of kv.1 <> k) -> spec_env kvs !! k = None.
Proof.
  intros H. destruct (spec_env kvs !! k) as [v|] eqn:E; [|reflexivity].
  apply spec_env_lookup_Some in E as (kv & Hin & Hk & _).
  destruct (H kv Hin Hk).
Qed.

Lemma spec_env_last (pre post : list (bytes * bytes)) (kv : bytes * bytes) :
  (forall kv', kv' ∈ post -> string_of kv'.1 <> string_of kv.1) ->
  spec_env (pre ++ kv :: post) !! string_of kv.1 = Some (string_of kv.2).
Proof.
  induction post as [|kv' post IH] using rev_ind; intros H.
  - rewrite spec_env_snoc. apply lookup_insert_eq.
  - rewrite app_comm_cons, app_assoc, spec_env_snoc.
    rewrite lookup_insert_ne.
    + apply IH. intros x Hx. apply H. rewrite elem_of_app. auto.
    + apply H. rewrite elem_of_app, list_elem_of_singleton. auto.
Qed.

(** X6. In the environment of a natively parsed event a key has the value
    of the last field that carries it: a later [key=value] field replaces an
    earlier one with the same key, and a key that no field carries is
    absent. *)
Theorem native_env_last_wins (P : Platform) (raw hdr a p : bytes)
    (mids : list bytes) (last : bytes) (kvs : list (bytes * bytes)) :
  ~ ((40 < length raw)%nat /\ take 8 raw = libudev_prefix) ->
  Split raw NUL = hdr :: mids ++ [last] ->
  Split hdr "@" = [a; p] -> string_of a ∈ actions ->
  Forall2 (fun f kv => Split f "=" = [kv.1; kv.2]) mids kvs ->
  exists e, ParseUEvent P raw = Return (Some e, None) /\
    (forall pre kv post, kvs = pre ++ kv :: post ->
       (forall kv', kv' ∈ post -> string_of kv'.1 <> string_of kv.1) ->
       Env e !! string_of kv.1 = Some (string_of kv.2)) /\
    (forall k, (forall kv, kv ∈ kvs -> string_of kv.1 <> k) -> Env e !! k = None).
Proof.
  intros Hfmt Es Eh Ha Hk.
  rewrite (ParseUEvent_not_udev P raw Hfmt), (native_fields _ _ _ _ Es), Eh.
  rewrite bool_decide_eq_true_2 by exact Ha.
  rewrite (range_env_ok _ _ _ Hk).
  eexists. split; [reflexivity|]. simpl. split.
  - intros pre kv post -> Hpost. apply spec_env_last, Hpost.
  - intros k Hno. apply spec_env_lookup_None, Hno.
Qed.

Lemma native_env_last_wins_witness :
  exists e, ParseUEvent linux_amd64
              (spec_fields [bytes_of "add@/a"; bytes_of "K=1"; bytes_of "K=2"])
            = Return (Some e, None) /\
    Env e !! "K" = Some "2".
Proof.
  destruct (native_env_last_wins linux_amd64
              (spec_fields [bytes_of "add@/a"; bytes_of "K=1"; bytes_of "K=2"])
              (bytes_of "add@/a") (bytes_of "add") (bytes_of "/a")
              [bytes_of "K=1"; bytes_of "K=2"] []
              [(bytes_of "K", bytes_of "1"); (bytes_of "K", bytes_of "2")])
    as (e & He & Hlast & _).
  - vm_compute. intros Hc. destruct Hc as [Hl Hr]. lia.
  - vm_compute. reflexivity.
  - vm_compute. reflexivity.
  - by_compute.
  - repeat constructor.
  - exists e. split; [exact He|].
    apply (Hlast [(bytes_of "K", bytes_of "1")] (bytes_of "K", bytes_of "2") []).
    + reflexivity.
    + intros kv' Hin. apply elem_of_nil in Hin. contradiction.
Defined.

(** X7. An enriched payload without the key [ACTION] is rejected: the
    lookup of the missing key gives the empty string, and the empty string
    is not an action. *)
Theorem udev_missing_action (P : Platform) (raw : bytes) (mids : list bytes)
    (last : bytes) (kvs : list (bytes * bytes)) :
  platform_ok P ->
  (40 < length raw)%nat -> take 8 raw = libudev_prefix ->
  spec_be (spec_bytes_at raw 8 4) = libudevMagic ->
  spec_native (nativeOrder P) (spec_bytes_at raw 16 4) < uint32 (len raw) ->
  Split (drop (Z.to_nat (spec_native (nativeOrder P) (spec_bytes_at raw 16 4))) raw) NUL
    = mids ++ [last] ->
  Forall2 (fun f kv => Split f "=" = [kv.1; kv.2]) mids kvs ->
  (forall kv, kv ∈ kvs -> string_of kv.1 <> "ACTION") ->
  ParseUEvent P raw = Return (None, Some (ErrUnknownAction "")).
Proof.
  intros [Hlow _] H1 H2 Hm Hoff Hs Hk Hno.
  rewrite (udev_payload P raw mids last kvs H1 H2 Hm Hoff Hs Hk). cbv zeta.
  assert (map_get (spec_env kvs) "ACTION" = "") as ->
    by (unfold map_get; rewrite (spec_env_lookup_None kvs "ACTION" Hno); reflexivity).
  rewrite (Hlow "") by reflexivity. simpl lower_string.
  rewrite bool_decide_eq_false_2; [reflexivity|].
  intros Hc. apply (bool_decide_pack _) in Hc. vm_compute in Hc. exact Hc.
Qed.

Lemma udev_missing_action_witness :
  ParseUEvent linux_amd64
    (udev_buffer LittleEndian libudevMagic 24
       (spec_fields [bytes_of "DEVPATH=/devices/bar"; bytes_of "SUBSYSTEM=block"]))
  = Return (None, Some (ErrUnknownAction "")).
Proof.
  apply (udev_missing_action linux_amd64 _
           [bytes_of "DEVPATH=/devices/bar"; bytes_of "SUBSYSTEM=block"] []
           [(bytes_of "DEVPATH", bytes_of "/devices/bar");
            (bytes_of "SUBSYSTEM", bytes_of "block")]).
  - exact linux_amd64_ok.
  - vm_compute. lia.
  - vm_compute. reflexivity.
  - vm_compute. reflexivity.
  - vm_compute. reflexivity.
  - vm_compute. reflexivity.
  - repeat constructor.
  - intros kv Hin. repeat (apply elem_of_cons in Hin as [->|Hin]);
      [vm_compute; discriminate..|apply elem_of_nil in Hin; contradiction].
Defined.

(** ** Encoding what was parsed *)

(** The two parts of a field without NUL hold neither NUL nor [=]. *)
Lemma pair_clean (f k v : bytes) :
  (NUL ∉ f) -> Split f "=" = [k; v] ->
  (NUL ∉ k) /\ ("="%char ∉ k) /\ (NUL ∉ v) /\ ("="%char ∉ v).
Proof.
  intros Hf E. apply Split_two in E as (-> & Hk & Hv).
  rewrite elem_of_app, elem_of_cons in Hf. tauto.
Qed.

Lemma spec_env_clean (fs : list bytes) (kvs : list (bytes * bytes)) (k v : string) :
  Forall (fun f => NUL ∉ f) fs ->
  Forall2 (fun f kv => Split f "=" = [kv.1; kv.2]) fs kvs ->
  spec_env kvs !! k = Some v ->
  (NUL ∉ bytes_of k) /\ ("="%char ∉ bytes_of k) /\
  (NUL ∉ bytes_of v) /\ ("="%char ∉ bytes_of v).
Proof.
  intros Hfs Hk Hl. apply spec_env_lookup_Some in Hl as (kv & Hin & <- & <-).
  rewrite !bytes_of_string_of.
  apply list_elem_of_lookup in Hin as [i Hi].
  destruct (Forall2_lookup_r _ _ _ _ _ Hk Hi) as (f & Hf & Hs).
  apply (pair_clean f); [|exact Hs].
  rewrite Forall_forall in Hfs. apply Hfs. apply list_elem_of_lookup. eauto.
Qed.

(** Parsing the encoding of an event whose encoding is a native-format
    buffer gives the event itself. *)
Lemma roundtrip_exact (P : Platform) (e : UEvent) (kvs : list (string * string)) :
  spec_native_event e -> range_of (Env e) kvs ->
  ParseUEvent P (Bytes_with kvs e) = Return (Some e, None).
Proof.
  intros Hev Hr.
  apply (spec_native_event_encodes kvs e Hr) in Hev as (Ha & Es & Eh & Ep).
  rewrite (ParseUEvent_not_udev P _ (Bytes_with_not_udev kvs e Ha)).
  rewrite (native_fields _ _ _ _ Es), Eh.
  rewrite string_of_bytes_of, bool_decide_eq_true_2 by exact Ha.
  rewrite (range_env_ok _ (map (fun kv : string * string => (bytes_of kv.1, bytes_of kv.2)) kvs)).
  2: { apply Forall2_fmap, Forall_Forall2_diag. exact Ep. }
  rewrite spec_env_of_strings, (range_of_env _ _ Hr), string_of_bytes_of.
  destruct e. reflexivity.
Qed.

(** An event of the native parser has an encoding that is a native-format
    buffer. *)
Lemma native_parsed_valid (raw : bytes) (e : UEvent) :
  ParseUEvent_native raw = Return (Some e, None) -> spec_native_event e.
Proof.
  destruct (decide (NUL ∈ raw)) as [Hin|Hout].
  2: { rewrite (native_no_nul _ Hout).
       destruct (Split raw "@") as [|h0 [|h1 [|? ?]]]; try discriminate.
       destruct (bool_decide _); discriminate. }
  destruct (Split_with_sep NUL raw Hin) as (hdr & mids & last & E).
  rewrite (native_fields _ _ _ _ E).
  pose proof (Split_fields NUL raw) as HF. rewrite E in HF.
  apply Forall_cons in HF as [Hh HF]. apply Forall_app in HF as [HF _].
  destruct (Split hdr "@") as [|h0 [|h1 [|? ?]]] eqn:Eh; try discriminate.
  destruct (bool_decide (string_of h0 ∈ actions)) eqn:Ha; [|discriminate].
  apply bool_decide_eq_true in Ha.
  destruct (range_env mids ∅) as [env ok] eqn:Er. destruct ok; [|discriminate].
  intros [= <-]. apply range_env_true in Er as (kvs & Hk & ->).
  apply Split_two in Eh as (-> & _ & Hat).
  rewrite elem_of_app, elem_of_cons in Hh.
  split; [exact Ha|]. simpl. rewrite bytes_of_string_of.
  split; [tauto|]. split; [exact Hat|].
  intros k v Hl. apply (spec_env_clean mids kvs k v HF Hk Hl).
Qed.

(** X8. An event that the native parser returned without error can be
    encoded and parsed again: whatever the order in which the encoder
    visits the environment, parsing the encoding gives the same event. *)
Theorem native_parse_encode_parse (P : Platform) (raw : bytes) (e : UEvent)
    (kvs : list (string * string)) :
  ~ ((40 < length raw)%nat /\ take 8 raw = libudev_prefix) ->
  ParseUEvent P raw = Return (Some e, None) ->
  range_of (Env e) kvs ->
  ParseUEvent P (Bytes_with kvs e) = Return (Some e, None).
Proof.
  intros Hfmt H Hr. rewrite (ParseUEvent_not_udev P raw Hfmt) in H.
  apply roundtrip_exact; [|exact Hr]. apply (native_parsed_valid raw e H).
Qed.

Lemma native_parse_encode_parse_witness :
  ParseUEvent linux_amd64 (Bytes_with [("DEVPATH", "/devices/foo")] event1)
  = Return (Some event1, None).
Proof.
  apply (native_parse_encode_parse linux_amd64 scenario1 event1).
  - vm_compute. intros Hc. destruct Hc as [Hl Hr]. lia.
  - apply scenario1_parses.
  - unfold range_of, event1. simpl. rewrite map_to_list_singleton. reflexivity.
Defined.

(** What an event of the enriched parser is made of. *)
Lemma udev_parsed_valid (P : Platform) (raw : bytes) (e : UEvent) :
  (40 < length raw)%nat ->
  parseUdevEvent P raw = Return (Some e, None) ->
  (Action e ∈ actions) /\ (NUL ∉ bytes_of (KObj e)) /\
  (forall k v, Env e !! k = Some v ->
     (NUL ∉ bytes_of k) /\ ("="%char ∉ bytes_of k) /\
     (NUL ∉ bytes_of v) /\ ("="%char ∉ bytes_of v)).
Proof.
  intros Hl. rewrite (udev_steps P raw Hl).
  destruct (bool_decide _); [discriminate|]. cbv zeta.
  destruct (_ >=? _); [discriminate|].
  set (fields := Split _ NUL).
  pose proof (Split_fields NUL (drop (Z.to_nat (spec_native (nativeOrder P)
                (spec_bytes_at raw 16 4))) raw)) as HF. fold fields in HF.
  destruct (Split_not_nil NUL (drop (Z.to_nat (spec_native (nativeOrder P)
                (spec_bytes_at raw 16 4))) raw)) as (f & fs & EF).
  fold fields in EF.
  destruct (exists_last (l := f :: fs)) as (mids & last & EL); [discriminate|].
  rewrite EF, EL, removelast_last. rewrite EF, EL in HF.
  apply Forall_app in HF as [HF _].
  destruct (range_env mids ∅) as [envdata ok] eqn:Er. destruct ok; [|discriminate].
  cbn [negb].
  destruct (bool_decide (ToLower P (map_get envdata "ACTION") ∈ actions)) eqn:Ha;
    [|discriminate].
  apply bool_decide_eq_true in Ha. intros [= <-]. simpl.
  apply range_env_true in Er as (kvs & Hk & ->).
  split; [exact Ha|]. split.
  - unfold map_get. destruct (_ !! "DEVPATH") as [v|] eqn:Ed.
    + apply (spec_env_clean mids kvs _ v HF Hk Ed).
    + simpl. apply not_elem_of_nil.
  - intros k v Hkv. apply (spec_env_clean mids kvs k v HF Hk Hkv).
Qed.

(** The NUL-separated fields of the encoding, when no string of the event
    holds a NUL. *)
Lemma encoding_fields (kvs : list (string * string)) (e : UEvent) :
  (NUL ∉ bytes_of (Action e)) -> (NUL ∉ bytes_of (KObj e)) ->
  (forall kv, kv ∈ kvs -> (NUL ∉ bytes_of kv.1) /\ (NUL ∉ bytes_of kv.2)) ->
  Split (Bytes_with kvs e) NUL
  = (bytes_of (Action e) ++ "@"%char :: bytes_of (KObj e))
    :: map (fun kv : string * string => spec_pair (bytes_of kv.1, bytes_of kv.2)) kvs
    ++ [[]].
Proof.
  intros Ha Hk Hkv. rewrite Bytes_with_fields.
  set (hdr := bytes_of (Action e) ++ "@"%char :: bytes_of (KObj e)).
  set (mids := map (fun kv : string * string => spec_pair (bytes_of kv.1, bytes_of kv.2)) kvs).
  rewrite <- (app_nil_r (spec_fields (hdr :: mids))).
  apply (Split_spec_fields (hdr :: mids) []); [|apply not_elem_of_nil].
  constructor.
  - unfold hdr. rewrite elem_of_app, elem_of_cons.
    intros [H|[H|H]]; [auto|discriminate|auto].
  - unfold mids. apply Forall_map, Forall_forall. intros kv Hin.
    destruct (Hkv kv Hin) as (H1 & H2).
    unfold spec_pair. simpl. rewrite elem_of_app, elem_of_cons.
    intros [H|[H|H]]; [auto|discriminate|auto].
Qed.

(** X9. An event that the enriched parser returned can be encoded, and the
    encoding is in the native format. When the kobject path, the value of
    [DEVPATH], holds no [@], parsing the encoding gives the same event.
    When it holds one, the header of the encoding has more than one [@] and
    parsing the encoding is the header error. *)
Theorem udev_parse_encode_parse (P : Platform) (raw : bytes) (e : UEvent)
    (kvs : list (string * string)) :
  (40 < length raw)%nat -> take 8 raw = libudev_prefix ->
  ParseUEvent P raw = Return (Some e, None) ->
  range_of (Env e) kvs ->
  (("@"%char ∉ bytes_of (KObj e)) ->
     ParseUEvent P (Bytes_with kvs e) = Return (Some e, None)) /\
  (("@"%char ∈ bytes_of (KObj e)) ->
     ParseUEvent P (Bytes_with kvs e) = Return (None, Some ErrWrongHeader)).
Proof.
  intros H1 H2 H Hr. rewrite (ParseUEvent_udev P raw H1 H2) in H.
  destruct (udev_parsed_valid P raw e H1 H) as (Ha & Hk & Henv). split.
  - intros Hat. apply roundtrip_exact; [|exact Hr].
    split; [exact Ha|]. split; [exact Hk|]. split; [exact Hat|exact Henv].
  - intros Hat.
    rewrite (ParseUEvent_not_udev P _ (Bytes_with_not_udev kvs e Ha)).
    destruct (action_bytes _ Ha) as (Ha0 & Ha1 & _ & _).
    rewrite (native_fields _ _ _ _ (encoding_fields kvs e Ha0 Hk
               ltac:(intros [k v] Hin; rewrite Hr in Hin;
                     apply elem_of_map_to_list, Henv in Hin; simpl; tauto))).
    pose proof (Split_length "@" (bytes_of (Action e) ++ "@"%char :: bytes_of (KObj e))) as Hlen.
    rewrite filter_app, filter_cons_True, length_app in Hlen by reflexivity.
    simpl in Hlen.
    assert (0 < length (filter (fun c : ascii => c = "@"%char) (bytes_of (KObj e))))%nat as Hpos.
    { destruct (filter _ (bytes_of (KObj e))) as [|c cs] eqn:Ef; [|simpl; lia].
      exfalso. assert ("@"%char ∈ filter (fun c : ascii => c = "@"%char) (bytes_of (KObj e))) as Hin
        by (apply list_elem_of_filter; auto).
      rewrite Ef in Hin. apply elem_of_nil in Hin. exact Hin. }
    destruct (Split _ "@") as [|h0 [|h1 [|? ?]]]; try reflexivity.
    simpl in Hlen. lia.
Qed.

Lemma udev_parse_encode_parse_witness :
  exists e, ParseUEvent linux_amd64 (scenario2 LittleEndian) = Return (Some e, None) /\
    ParseUEvent linux_amd64
      (Bytes_with [("ACTION", "change"); ("DEVPATH", "/devices/bar")] e)
    = Return (Some e, None).
Proof.
  pose proof (scenario2_parses linux_amd64 linux_amd64_ok) as Hp.
  eexists. split; [exact Hp|].
  destruct (udev_parse_encode_parse linux_amd64 (scenario2 LittleEndian) _
              [("ACTION", "change"); ("DEVPATH", "/devices/bar")]
              ltac:(vm_compute; lia) ltac:(vm_compute; reflexivity) Hp) as [Hok _].
  - unfold range_of. simpl.
    rewrite map_to_list_insert by (vm_compute; reflexivity).
    rewrite map_to_list_singleton. apply Permutation_swap.
  - apply Hok. intros Hc. apply (bool_decide_pack _) in Hc. vm_compute in Hc. exact Hc.
Defined.

(** ** Edges of the format detection and of the enriched header *)

(** X10. A buffer that starts with "libudev" and NUL but has 40 bytes or
    less is not taken for the enriched format; the native parser finds no
    [@] in its first field "libudev" and the result is the header error,
    whatever the rest of the buffer is. *)
Theorem short_udev_buffer_rejected (P : Platform) (raw : bytes) :
  take 8 raw = libudev_prefix -> (length raw <= 40)%nat ->
  ParseUEvent P raw = Return (None, Some ErrWrongHeader).
Proof.
  intros Hp Hl.
  rewrite (ParseUEvent_not_udev P raw) by (intros [Hc _]; lia).
  destruct (Split_not_nil NUL (drop 8 raw)) as (g & gs & Eg).
  destruct (exists_last (l := g :: gs)) as (mids & last & EL); [discriminate|].
  assert (Split raw NUL = bytes_of "libudev" :: mids ++ [last]) as Es.
  { rewrite (libudev_prefix_split raw Hp) at 1.
    rewrite Split_app_sep, Eg, EL; [reflexivity|].
    intros Hc. apply (bool_decide_pack _) in Hc. vm_compute in Hc. exact Hc. }
  rewrite (native_fields _ _ _ _ Es). reflexivity.
Qed.

Lemma short_udev_buffer_rejected_witness :
  ParseUEvent linux_amd64
    (udev_buffer LittleEndian libudevMagic 24 (spec_fields [bytes_of "ACTION=add"]))
  = Return (None, Some ErrWrongHeader).
Proof.
  apply short_udev_buffer_rejected.
  - vm_compute. reflexivity.
  - vm_compute. lia.
Defined.

(** X11. The payload offset is only compared with the length of the
    buffer, so an offset that points into the prefix passes the check; the
    first field of the payload is then what is left of "libudev", it does
    not split on [=], and the result is the env-data error. (The buffer is
    shorter than 4 GiB.) *)
Theorem udev_offset_into_prefix (P : Platform) (raw : bytes) :
  (40 < length raw)%nat -> take 8 raw = libudev_prefix ->
  len raw < 2 ^ 32 ->
  spec_be (spec_bytes_at raw 8 4) = libudevMagic ->
  spec_native (nativeOrder P) (spec_bytes_at raw 16 4) < 8 ->
  ParseUEvent P raw = Return (None, Some ErrInvalidEnvData).
Proof.
  intros H1 H2 H32 Hm Hoff.
  rewrite (ParseUEvent_udev P raw H1 H2), (udev_steps P raw H1).
  rewrite bool_decide_eq_false_2 by (intros Hc; apply Hc, Hm). cbv zeta.
  set (off := spec_native (nativeOrder P) (spec_bytes_at raw 16 4)) in *.
  replace (off >=? uint32 (len raw)) with false.
  2: { symmetry. rewrite Z.geb_leb. apply Z.leb_gt. unfold uint32.
       rewrite Z.mod_small by (pose proof (len_nonneg raw); lia). unfold len. lia. }
  assert (exists f g gs, Split (drop (Z.to_nat off) raw) NUL = f :: g :: gs /\
            Split f "=" = [f]) as (f & g & gs & Es & Ef).
  { destruct (Split_not_nil NUL (drop 8 raw)) as (g & gs & Eg).
    assert (Z.to_nat off <= length (bytes_of "libudev"))%nat as Hn
      by (change (length (bytes_of "libudev")) with 7%nat; lia).
    assert (forall c, c ∉ bytes_of "libudev" ->
              c ∉ drop (Z.to_nat off) (bytes_of "libudev")) as Hsub
      by (intros c Hc Hin; apply Hc; apply (subseteq_drop _ _ _ Hin)).
    rewrite (libudev_prefix_split raw H2).
    exists (drop (Z.to_nat off) (bytes_of "libudev")), g, gs.
    rewrite drop_app_le by exact Hn. split.
    - rewrite Split_app_sep, Eg; [reflexivity|]. apply Hsub.
      intros Hc. apply (bool_decide_pack _) in Hc. vm_compute in Hc. exact Hc.
    - apply Split_no_sep, Hsub.
      intros Hc. apply (bool_decide_pack _) in Hc. vm_compute in Hc. exact Hc. }
  rewrite Es.
  assert (removelast (f :: g :: gs) = f :: removelast (g :: gs)) as -> by reflexivity.
  cbn [range_env]. rewrite Ef. reflexivity.
Qed.

Lemma udev_offset_into_prefix_witness :
  ParseUEvent linux_amd64
    (udev_buffer LittleEndian libudevMagic 3
       (spec_fields [bytes_of "ACTION=change"; bytes_of "DEVPATH=/devices/bar"]))
  = Return (None, Some ErrInvalidEnvData).
Proof.
  apply udev_offset_into_prefix.
  - vm_compute. lia.
  - vm_compute. reflexivity.
  - vm_compute. reflexivity.
  - vm_compute. reflexivity.
  - vm_compute. reflexivity.
Defined.

(** X12. Of the header of the enriched format only the magic number and
    the payload offset are looked at: two buffers that differ in bytes
    12..16 and in the bytes between byte 20 and the payload, and in nothing
    else, parse alike. *)
Theorem udev_header_rest_ignored (P : Platform) (m x1 x2 o y1 y2 payload : bytes) :
  length m = 4%nat -> length o = 4%nat ->
  length x1 = 4%nat -> length x2 = 4%nat -> length y1 = length y2 ->
  spec_native (nativeOrder P) o = 20 + len y1 ->
  (20 < length y1 + length payload)%nat ->
  ParseUEvent P (libudev_prefix ++ m ++ x1 ++ o ++ y1 ++ payload)
  = ParseUEvent P (libudev_prefix ++ m ++ x2 ++ o ++ y2 ++ payload).
Proof.
  intros Lm Lo L1 L2 Ly Hoff Hlen.
  assert (forall x y, length x = 4%nat -> length y = length y1 ->
    ParseUEvent P (libudev_prefix ++ m ++ x ++ o ++ y ++ payload)
    = ParseUEvent P (libudev_prefix ++ m ++ x1 ++ o ++ y1 ++ payload)) as Hsame.
  { assert (forall x y, length x = 4%nat -> length y = length y1 ->
      let raw := libudev_prefix ++ m ++ x ++ o ++ y ++ payload in
      (40 < length raw)%nat /\ take 8 raw = libudev_prefix /\
      length raw = (20 + length y1 + length payload)%nat /\
      spec_bytes_at raw 8 4 = m /\ spec_bytes_at raw 16 4 = o /\
      drop (Z.to_nat (20 + len y1)) raw = payload) as Hraw.
    { intros x y Lx Lyy raw.
      assert (length libudev_prefix = 8%nat) as Lp by reflexivity.
      assert (length raw = (20 + length y1 + length payload)%nat) as Lr
        by (unfold raw; rewrite !length_app; lia).
      split; [lia|]. split; [apply take_app_length'; symmetry; exact Lp|]. split; [exact Lr|].
      split; [|split].
      - unfold spec_bytes_at, raw. rewrite drop_app_length' by (symmetry; exact Lp).
        apply take_app_length'. symmetry. exact Lm.
      - unfold spec_bytes_at, raw.
        replace (libudev_prefix ++ m ++ x ++ o ++ y ++ payload)
          with ((libudev_prefix ++ m ++ x) ++ o ++ y ++ payload)
          by (rewrite <- !app_assoc; reflexivity).
        rewrite drop_app_length' by (rewrite !length_app; lia).
        apply take_app_length'. symmetry. exact Lo.
      - unfold raw.
        replace (libudev_prefix ++ m ++ x ++ o ++ y ++ payload)
          with ((libudev_prefix ++ m ++ x ++ o ++ y) ++ payload)
          by (rewrite <- !app_assoc; reflexivity).
        apply drop_app_length'. rewrite !length_app. unfold len. lia. }
    intros x y Lx Lyy.
    destruct (Hraw x y Lx Lyy) as (A1 & A2 & A3 & A4 & A5 & A6).
    destruct (Hraw x1 y1 L1 eq_refl) as (B1 & B2 & B3 & B4 & B5 & B6).
    rewrite (ParseUEvent_udev P _ A1 A2), (ParseUEvent_udev P _ B1 B2).
    rewrite (udev_steps P _ A1), (udev_steps P _ B1).
    rewrite A4, A5, B4, B5. cbv zeta. rewrite Hoff, A6, B6.
    unfold len. rewrite A3, B3. reflexivity. }
  symmetry. apply Hsame; [exact L2|symmetry; exact Ly].
Qed.

Lemma udev_header_rest_ignored_witness :
  ParseUEvent linux_amd64
    (libudev_prefix ++ put_be32 libudevMagic ++ make 4 ++ put_native32 LittleEndian 24
       ++ make 4 ++ spec_fields [bytes_of "ACTION=change"; bytes_of "DEVPATH=/devices/bar"])
  = ParseUEvent linux_amd64
    (libudev_prefix ++ put_be32 libudevMagic ++ bytes_of "abcd" ++ put_native32 LittleEndian 24
       ++ bytes_of "wxyz" ++ spec_fields [bytes_of "ACTION=change"; bytes_of "DEVPATH=/devices/bar"]).
Proof.
  apply udev_header_rest_ignored; try reflexivity.
  vm_compute. lia.
Defined.

(** ** Reading one datagram *)

Lemma msgPeek_loop_inv (P : Platform) (fuel : nat) (s : Socket) (buf : bytes)
    (n : Z) (buf' : bytes) (err : option error) (s' : Socket) :
  msgPeek_loop P fuel s buf = Done (n, buf', err) s' ->
  (err = None ->
     s' = s /\ exists d rest, s = Datagram d :: rest /\ n = len d /\
       take (length d) buf' = d /\ (length d < length buf')%nat) /\
  (forall e, err = Some e ->
     exists code, s = SockErr code :: s' /\ e = Errno code /\ n = -1).
Proof.
  revert buf. induction fuel as [|fuel IH]; intros buf; simpl; [discriminate|].
  destruct s as [|[d|code] rest]; simpl; [discriminate| |].
  - destruct (_ <? _) eqn:Hlt.
    + intros [= <- <- <- <-]. split; [|discriminate]. intros _.
      split; [reflexivity|]. exists d, rest.
      apply Z.ltb_lt in Hlt. unfold len in Hlt.
      rewrite length_app, length_take, length_drop in Hlt.
      assert (length d < length buf)%nat as Hd by lia.
      replace (length d `min` length buf)%nat with (length d) by lia.
      rewrite firstn_all. split; [reflexivity|]. split; [unfold len; lia|].
      split; [apply take_app_length|rewrite length_app, length_drop; lia].
    + apply IH.
  - intros [= <- <- <- <-]. split; [discriminate|].
    intros e [= <-]. exists code. auto.
Qed.

(** X13. The size probe takes nothing off the socket when it succeeds: it
    returns with the socket as it found it, a datagram at its head; the
    count is the size of that datagram and the buffer, larger than the
    datagram, starts with its bytes. When it fails, the error is the pending
    error of the socket, which it has taken off, and the count is -1. *)
Theorem msgPeek_nondestructive (P : Platform) (fuel : nat) (s : Socket) (n : Z)
    (buf : bytes) (err : option error) (s' : Socket) :
  msgPeek P fuel s = Done (n, buf, err) s' ->
  (err = None ->
     s' = s /\ exists d rest, s = Datagram d :: rest /\ n = len d /\
       take (length d) buf = d /\ (length d < length buf)%nat) /\
  (forall e, err = Some e ->
     exists code, s = SockErr code :: s' /\ e = Errno code /\ n = -1).
Proof. apply msgPeek_loop_inv. Qed.

Lemma msgPeek_nondestructive_witness :
  match msgPeek linux_amd64 1 [Datagram scenario1; Datagram malformed] with
  | Done (n, buf, None) s' =>
      s' = [Datagram scenario1; Datagram malformed] /\ n = len scenario1 /\
      take (length scenario1) buf = scenario1
  | _ => False
  end.
Proof.
  destruct (msgPeek linux_amd64 1 [Datagram scenario1; Datagram malformed])
    as [[[n buf] [err|]] s'| | |] eqn:E; try (vm_compute in E; discriminate).
  destruct (msgPeek_nondestructive linux_amd64 1 _ n buf None s' E) as [H _].
  destruct (H eq_refl) as (-> & d & rest & [= <- <-] & -> & Ht & _).
  auto.
Defined.

Lemma ReadMsg_inv (P : Platform) (fuel : nat) (s : Socket) (msg : bytes) (s' : Socket) :
  ReadMsg P fuel s = Done (msg, None) s' -> s = Datagram msg :: s'.
Proof.
  unfold ReadMsg.
  destruct (msgPeek P fuel s) as [[[n buf] err] s1| | |] eqn:E; try discriminate.
  destruct (msgPeek_loop_inv P fuel s _ n buf err s1 E) as [Hok _].
  destruct err as [e|]; [discriminate|].
  destruct (Hok eq_refl) as (-> & d & rest & -> & _ & _ & Hl).
  rewrite msgRead_datagram.
  replace (length d `min` length buf)%nat with (length d) by lia.
  rewrite firstn_all. simpl. intros [= <- <-]. reflexivity.
Qed.

(** X14. [ReadMsg] returns exactly one whole datagram: a message returned
    without error is the datagram that was at the head of the socket, all
    of it and nothing behind it, and it has been taken off; and with a
    datagram pending, of whatever size, [ReadMsg] does return it. *)
Theorem ReadMsg_exact (P : Platform) (fuel : nat) (s : Socket) (msg : bytes)
    (s' : Socket) :
  platform_ok P ->
  (ReadMsg P fuel s = Done (msg, None) s' -> s = Datagram msg :: s') /\
  ((length msg < fuel)%nat ->
     ReadMsg P fuel (Datagram msg :: s') = Done (msg, None) s').
Proof.
  intros [_ Hp]. split.
  - apply ReadMsg_inv.
  - intros Hf. apply ReadMsg_datagram; assumption.
Qed.

Lemma ReadMsg_exact_witness :
  ReadMsg linux_amd64 100 [Datagram scenario1; Datagram malformed]
  = Done (scenario1, None) [Datagram malformed].
Proof.
  destruct (ReadMsg_exact linux_amd64 100 [] scenario1 [Datagram malformed]
              linux_amd64_ok) as [_ H].
  apply H. vm_compute. lia.
Defined.

(** X15. [ReadUEvent] parses the datagram at the head of the socket and
    takes it off, whether it parses or not; a panic of the parser is a
    panic of [ReadUEvent]. With an error pending instead, the error comes
    back, nothing is parsed, and the datagrams behind it stay. *)
Theorem ReadUEvent_parses_head (P : Platform) (fuel : nat) (d : bytes) (rest : Socket)
    (code : nat) :
  platform_ok P -> (length d < fuel)%nat ->
  ReadUEvent P fuel (Datagram d :: rest)
    = match ParseUEvent P d with
      | Return r => Done r rest
      | Panic p => Crashes p
      end /\
  ReadUEvent P fuel (SockErr code :: rest) = Done (None, Some (Errno code)) rest.
Proof.
  intros [_ Hp] Hf. split.
  - unfold ReadUEvent. rewrite (ReadMsg_datagram P fuel d rest Hp Hf). reflexivity.
  - destruct fuel as [|f]; [lia|]. reflexivity.
Qed.

Lemma ReadUEvent_parses_head_witness :
  ReadUEvent linux_amd64 100 [Datagram scenario1; Datagram malformed]
  = Done (Some event1, None) [Datagram malformed].
Proof.
  destruct (ReadUEvent_parses_head linux_amd64 100 scenario1 [Datagram malformed] 0
              linux_amd64_ok ltac:(vm_compute; lia)) as [H _].
  rewrite H, (scenario1_parses linux_amd64). reflexivity.
Defined.

(** ** More on the worker of [Monitor] *)

Lemma loop_turn_counts (P : Platform) (c : UEventConn) (matcher : option Matcher)
    (fuel : nat) (quit_ready coin : bool) (w : Worker) :
  count w = len (queue w) ->
  (MatchedUEventLimit c > 0 -> count w < MatchedUEventLimit c) ->
  match loop_turn P c matcher fuel quit_ready coin w with
  | Continue w' =>
      count w' = len (queue w') /\
      (MatchedUEventLimit c > 0 -> count w' < MatchedUEventLimit c)
  | Break w' | Waits w' =>
      count w' = len (queue w') /\
      (MatchedUEventLimit c > 0 -> count w' <= MatchedUEventLimit c)
  | _ => True
  end.
Proof.
  intros Hc Hl.
  assert (count w = len (queue w) /\
          (MatchedUEventLimit c > 0 -> count w <= MatchedUEventLimit c)) as Hfin
    by (split; [exact Hc|intros H; specialize (Hl H); lia]).
  unfold loop_turn. destruct (bufToRead w) as [buf|].
  - destruct (quit_ready && coin); [exact Hfin|].
    unfold on_buf.
    destruct (msgRead (sock w) buf) as [[b' [er|]] s'| | |]; simpl; auto.
    destruct (ParseUEvent P (default [] b')) as [[[e|] [err|]]|p]; simpl; auto.
    destruct (match matcher with Some m => negb (Evaluate m e) | None => false end);
      simpl; auto.
    assert (count w + 1 = len (queue w ++ [e])) as Hq
      by (unfold len in *; rewrite length_app; simpl; lia).
    destruct (MatchedUEventLimit c >? 0) eqn:E1; simpl.
    + destruct (count w + 1 >=? MatchedUEventLimit c) eqn:E2; simpl.
      * split; [exact Hq|]. intros H. specialize (Hl H). lia.
      * split; [exact Hq|]. intros _.
        rewrite Z.geb_leb in E2. apply Z.leb_gt in E2. exact E2.
    + split; [exact Hq|]. intros H. exfalso.
      assert (0 < MatchedUEventLimit c) as H' by lia.
      apply Z.gtb_lt in H'. congruence.
  - destruct quit_ready; [exact Hfin|].
    unfold on_default.
    destruct (msgPeek P fuel (sock w)) as [[[n buf] [er|]] s'| | |]; simpl; auto.
Qed.

Lemma worker_counts (P : Platform) (c : UEventConn) (matcher : option Matcher)
    (fuel turns : nat) (quit : list (bool * bool)) (w w' : Worker) :
  count w = len (queue w) ->
  (MatchedUEventLimit c > 0 -> count w < MatchedUEventLimit c) ->
  worker P c matcher fuel turns quit w = Break w' \/
  worker P c matcher fuel turns quit w = Waits w' ->
  count w' = len (queue w') /\
  (MatchedUEventLimit c > 0 -> count w' <= MatchedUEventLimit c).
Proof.
  revert quit w. induction turns as [|turns IH]; intros quit w Hc Hl.
  - simpl. intros [H|H]; discriminate.
  - simpl. destruct (default (false, false) (head quit)) as [qr coin].
    pose proof (loop_turn_counts P c matcher fuel qr coin w Hc Hl) as Ht.
    destruct (loop_turn P c matcher fuel qr coin w) as [w1|w1|w1|p|].
    + destruct Ht as [Hc1 Hl1]. apply IH; assumption.
    + intros [[= <-]|H]; [exact Ht|discriminate].
    + intros [H|[= <-]]; [discriminate|exact Ht].
    + intros [H|H]; discriminate.
    + intros [H|H]; discriminate.
Qed.

(** X16. The worker never delivers more events than the limit allows:
    started as [Monitor] starts it, on any socket, with any matcher and any
    arrival of the stop signal, when it has ended or waits for a datagram
    its counter is the number of events on the queue, and with a positive
    limit that number is at most the limit. *)
Theorem worker_respects_limit (P : Platform) (c : UEventConn)
    (matcher : option Matcher) (fuel turns : nat) (quit : list (bool * bool))
    (s : Socket) (w' : Worker) :
  worker P c matcher fuel turns quit (mkWorker s None 0 [] []) = Break w' \/
  worker P c matcher fuel turns quit (mkWorker s None 0 [] []) = Waits w' ->
  count w' = len (queue w') /\
  (MatchedUEventLimit c > 0 -> len (queue w') <= MatchedUEventLimit c).
Proof.
  intros H.
  destruct (worker_counts P c matcher fuel turns quit (mkWorker s None 0 [] []) w'
              ltac:(reflexivity) ltac:(simpl; lia) H) as [Hc Hl].
  split; [exact Hc|]. rewrite <- Hc. exact Hl.
Qed.

Lemma worker_respects_limit_witness :
  match worker linux_amd64 (mkUEventConn 3 1) None 100 7 []
          (mkWorker [Datagram scenario1; Datagram scenario_remove] None 0 [] []) with
  | Break w' => len (queue w') <= 1 /\ sock w' = [Datagram scenario_remove]
  | _ => False
  end.
Proof.
  destruct (worker linux_amd64 (mkUEventConn 3 1) None 100 7 []
              (mkWorker [Datagram scenario1; Datagram scenario_remove] None 0 [] []))
    as [w1|w1|w1|p|] eqn:E; try (vm_compute in E; discriminate).
  destruct (worker_respects_limit _ _ _ _ _ _ _ w1 (or_introl E)) as [_ Hl].
  split; [apply Hl; simpl; lia|].
  vm_compute in E. injection E as <-. reflexivity.
Defined.

Lemma ParseUEvent_not_nil_nil (P : Platform) (raw : bytes) :
  ParseUEvent P raw <> Return (None, None).
Proof.
  intros H. destruct (ParseUEvent_cases P raw) as [[Hl E]|E]; rewrite E in H.
  - destruct (udev_result_shape P raw None None Hl H) as [Ha _].
    destruct (Ha eq_refl) as [e He]. discriminate.
  - destruct (native_result_shape raw None None H) as [Ha _].
    destruct (Ha eq_refl) as [e He]. discriminate.
Qed.

(** X17. Without a limit and without a stop signal the worker takes the
    pending datagrams one after the other and keeps their order: it sends
    the events of the datagrams that parse and pass the matcher on the
    queue, the parse errors of the others on the error stream, both in the
    order of the datagrams, counts the events, and then waits for the next
    datagram. No datagram here is one on which the parser panics. *)
Theorem worker_delivers_in_order (P : Platform) (c : UEventConn)
    (matcher : option Matcher) (fuel : nat) (ds : list bytes) (cnt : Z)
    (q : list UEvent) (es : list error) :
  platform_ok P -> MatchedUEventLimit c <= 0 -> (0 < fuel)%nat ->
  (forall d, d ∈ ds -> (length d < fuel)%nat /\ forall p, ParseUEvent P d <> Panic p) ->
  worker P c matcher fuel (2 * length ds + 1) []
    (mkWorker (map Datagram ds) None cnt q es)
  = Waits (mkWorker [] None
             (cnt + len (concat (map (delivered P matcher) ds)))
             (q ++ concat (map (delivered P matcher) ds))
             (es ++ concat (map (reported P) ds))).
Proof.
  intros [_ Hp] Hlim Hf. revert cnt q es.
  induction ds as [|d ds IH]; intros cnt q es Hds.
  - change (2 * length (@nil bytes) + 1)%nat with 1%nat. cbn [map].
    rewrite (worker_waits P c matcher fuel Hp) by exact Hf.
    simpl concat. rewrite !app_nil_r. unfold len. simpl length.
    rewrite Z.add_0_r. reflexivity.
  - assert (forall d', d' ∈ ds ->
              (length d' < fuel)%nat /\ forall p, ParseUEvent P d' <> Panic p) as Hds'
      by (intros d' Hin; apply Hds, list_elem_of_further, Hin).
    destruct (Hds d (list_elem_of_here _ _)) as [Hfd Hnp].
    replace (2 * length (d :: ds) + 1)%nat with (S (S (2 * length ds + 1)))
      by (simpl; lia).
    cbn [map concat].
    rewrite (worker_datagram P c matcher fuel Hp d _ cnt q es _ Hfd).
    assert ((MatchedUEventLimit c >? 0) = false) as Hno
      by (destruct (MatchedUEventLimit c >? 0) eqn:E; [apply Z.gtb_lt in E; lia|reflexivity]).
    pose proof (eq_refl : delivered P matcher d = _) as Hd. unfold delivered at 2 in Hd.
    pose proof (eq_refl : reported P d = _) as Hr. unfold reported at 2 in Hr.
    pose proof (ParseUEvent_not_nil_nil P d) as Hnn.
    destruct (ParseUEvent P d) as [[[e|] [err|]]|p].
    + rewrite IH, Hd, Hr by exact Hds'. simpl. rewrite <- app_assoc. reflexivity.
    + destruct (accepted matcher e).
      * rewrite Hno. cbn [andb]. rewrite IH, Hd, Hr by exact Hds'.
        simpl. rewrite <- !app_assoc. simpl.
        f_equal. f_equal. unfold len. simpl. lia.
      * rewrite IH, Hd, Hr by exact Hds'. reflexivity.
    + rewrite IH, Hd, Hr by exact Hds'. simpl. rewrite <- app_assoc. reflexivity.
    + congruence.
    + destruct (Hnp p eq_refl).
Qed.

Lemma worker_delivers_in_order_witness :
  exists w,
    worker linux_amd64 (mkUEventConn 3 0) None 100 7 []
      (mkWorker (map Datagram [scenario1; malformed; scenario_remove]) None 0 [] [])
    = Waits w /\ sock w = [].
Proof.
  eexists. split.
  - apply (worker_delivers_in_order linux_amd64 (mkUEventConn 3 0) None 100
             [scenario1; malformed; scenario_remove] 0 [] []).
    + exact linux_amd64_ok.
    + simpl. lia.
    + lia.
    + intros d Hin. repeat (apply elem_of_cons in Hin as [->|Hin]);
        [..|apply elem_of_nil in Hin; contradiction];
        (split; [vm_compute; lia|intros p Hc; vm_compute in Hc; discriminate]).
  - reflexivity.
Defined.

Lemma on_buf_empties (P : Platform) (c : UEventConn) (matcher : option Matcher)
    (buf : option bytes) (w w' : Worker) :
  on_buf P c matcher buf w = Continue w' -> bufToRead w' = None.
Proof.
  unfold on_buf.
  destruct (msgRead (sock w) buf) as [[b' [er|]] s'| | |]; try discriminate.
  destruct (ParseUEvent P (default [] b')) as [[[e|] [err|]]|p]; try discriminate;
    try (intros [= <-]; reflexivity).
  destruct (match matcher with Some m => negb (Evaluate m e) | None => false end);
    [intros [= <-]; reflexivity|].
  destruct ((MatchedUEventLimit c >? 0) && (count w + 1 >=? MatchedUEventLimit c));
    [discriminate|intros [= <-]; reflexivity].
Qed.

(** X18. Once a receive from [quit] can proceed and keeps being able to,
    the worker makes no further size probe. With nothing on [bufToRead] it
    ends at once, leaving socket, queue and error stream as they are. With
    a probed buffer on [bufToRead], [select] chooses: the worker ends at
    once, or it takes that one datagram through read, parse and delivery
    first and ends after it. *)
Theorem worker_stops_on_quit (P : Platform) (c : UEventConn)
    (matcher : option Matcher) (fuel turns : nat) (coin1 coin2 : bool)
    (quit : list (bool * bool)) (w : Worker) :
  (bufToRead w = None ->
     worker P c matcher fuel (S turns) ((true, coin1) :: quit) w = Break w) /\
  (forall buf, bufToRead w = Some buf ->
     worker P c matcher fuel (S (S turns)) ((true, coin1) :: (true, coin2) :: quit) w
     = if coin1 then Break w
       else match on_buf P c matcher buf w with
            | Continue w' => Break w'
            | t => t
            end).
Proof.
  split.
  - intros Hb. cbn [worker head tail default from_option id]. unfold loop_turn.
    rewrite Hb. reflexivity.
  - intros buf Hb. cbn [worker head tail default from_option id]. unfold loop_turn at 1.
    rewrite Hb. destruct coin1; [reflexivity|]. cbn [andb].
    destruct (on_buf P c matcher buf w) as [w1|w1|w1|p|] eqn:E; try reflexivity.
    unfold loop_turn. rewrite (on_buf_empties P c matcher buf w w1 E). reflexivity.
Qed.

Lemma worker_stops_on_quit_witness :
  worker linux_amd64 (mkUEventConn 3 0) None 100 5 [(true, false); (true, false)]
    (mkWorker [Datagram scenario1] None 0 [] [])
  = Break (mkWorker [Datagram scenario1] None 0 [] []).
Proof.
  destruct (worker_stops_on_quit linux_amd64 (mkUEventConn 3 0) None 100 4 false false
              [(true, false)] (mkWorker [Datagram scenario1] None 0 [] [])) as [H _].
  apply H. reflexivity.
Defined.

(** X19. The worker does not survive a panic of the parser: a pending
    datagram without NUL byte whose bytes are a header [action@path] with
    one of the eight actions ends the worker with the slice-bounds panic,
    whatever is pending behind it. *)
Theorem worker_crashes_on_header_only (P : Platform) (c : UEventConn)
    (matcher : option Matcher) (fuel turns : nat) (d a path : bytes) (rest : Socket)
    (cnt : Z) (q : list UEvent) (es : list error) :
  platform_ok P -> (length d < fuel)%nat ->
  (NUL ∉ d) -> Split d "@" = [a; path] -> string_of a ∈ actions ->
  worker P c matcher fuel (S (S turns)) [] (mkWorker (Datagram d :: rest) None cnt q es)
  = Crashed SliceBounds.
Proof.
  intros [_ Hp] Hf Hnul Es Ha.
  rewrite (worker_datagram P c matcher fuel Hp d rest cnt q es turns Hf).
  assert (ParseUEvent P d = Panic SliceBounds) as ->
    by (apply ParseUEvent_panics_iff; eauto 6).
  reflexivity.
Qed.

Lemma worker_crashes_on_header_only_witness :
  worker linux_amd64 (mkUEventConn 3 0) None 100 7 []
    (mkWorker [Datagram header_only; Datagram scenario1] None 0 [] [])
  = Crashed SliceBounds.
Proof.
  apply (worker_crashes_on_header_only linux_amd64 (mkUEventConn 3 0) None 100 5
           header_only (bytes_of "add") (bytes_of "/devices/foo")).
  - exact linux_amd64_ok.
  - vm_compute. lia.
  - intros Hc. apply (bool_decide_pack _) in Hc. vm_compute in Hc. exact Hc.
  - vm_compute. reflexivity.
  - by_compute.
Defined.

(** ** Opening and closing the socket *)

Lemma close_new_descriptor (fd : Z) (open : gset Z) :
  fd ∉ open -> ({[fd]} ∪ open) ∖ {[fd]} = open.
Proof.
  intros Hfresh. apply set_eq. intros x.
  rewrite elem_of_difference, elem_of_union, elem_of_singleton. split.
  - intros [[Hx|Hx] Hne]; [contradiction|exact Hx].
  - intros Hx. split; [right; exact Hx|]. intros ->. contradiction.
Qed.

(** X20. [Connect] leaks no descriptor: when it returns an error, the
    table of open descriptors is as it was before the call, both when
    [socket] fails and when [bind] fails after [socket] gave a new
    descriptor. The connection is left with a descriptor number that is not
    open, -1 or the number of the descriptor just closed, so [Close] on it
    is the error EBADF and closes nothing. *)
Theorem Connect_no_leak (c : Sys.NetlinkConn) (mode : Z) (a : Sys.answers)
    (open : gset Z) (c' : Sys.NetlinkConn) (err : error) (open' : gset Z) :
  (forall fd, fd ∈ open -> 0 <= fd) ->
  (forall fd, Sys.socket_answer a = inl fd -> fd ∉ open) ->
  Sys.Connect c mode a open = (c', Some err, open') ->
  open' = open /\ (Sys.Fd c' ∉ open') /\
  Sys.Close c' open' = (Some (Errno Sys.EBADF), open').
Proof.
  intros Hpos Hfresh. unfold Sys.Connect, Sys.sys_Socket.
  assert (forall fd, fd ∉ open ->
            Sys.Close (Sys.mkNetlinkConn fd (Sys.Addr c)) open
            = (Some (Errno Sys.EBADF), open)) as Hclose.
  { intros fd Hfd. unfold Sys.Close, Sys.sys_Close. simpl.
    rewrite decide_False by exact Hfd. reflexivity. }
  destruct (Sys.socket_answer a) as [fd|code] eqn:Es.
  - specialize (Hfresh fd eq_refl). unfold Sys.sys_Bind.
    destruct (Sys.bind_answer a) as [code|]; [|discriminate].
    unfold Sys.sys_Close.
    rewrite decide_True by (apply elem_of_union_l, elem_of_singleton; reflexivity).
    rewrite close_new_descriptor by exact Hfresh.
    intros [= <- <- <-].
    split; [reflexivity|]. split; [exact Hfresh|].
    unfold Sys.Close, Sys.sys_Close. simpl. rewrite decide_False by exact Hfresh.
    reflexivity.
  - intros [= <- <- <-]. split; [reflexivity|].
    assert (-1 ∉ open) as Hn by (intros Hin; apply Hpos in Hin; lia).
    split; [exact Hn|]. apply Hclose, Hn.
Qed.

Lemma Connect_no_leak_witness :
  Sys.Connect (Sys.mkNetlinkConn 0 (Sys.mkSockaddrNetlink 0 0 0)) Sys.UdevEvent
    (Sys.mkAnswers (inl 3) (Some 13%nat)) {[0; 1; 2]}
  = (Sys.mkNetlinkConn 3 (Sys.mkSockaddrNetlink Sys.AF_NETLINK 0 2), Some (Errno 13),
     {[0; 1; 2]}).
Proof.
  assert (Sys.Connect (Sys.mkNetlinkConn 0 (Sys.mkSockaddrNetlink 0 0 0)) Sys.UdevEvent
            (Sys.mkAnswers (inl 3) (Some 13%nat)) {[0; 1; 2]}
          = (Sys.mkNetlinkConn 3 (Sys.mkSockaddrNetlink Sys.AF_NETLINK 0 2),
             Some (Errno 13), ({[3]} ∪ {[0; 1; 2]}) ∖ {[3]})) as E
    by (vm_compute; reflexivity).
  assert (forall fd : Z, fd ∈ ({[0; 1; 2]} : gset Z) -> 0 <= fd) as Hpos
    by (intros fd Hin; rewrite !elem_of_union, !elem_of_singleton in Hin; lia).
  assert (forall fd : Z, Sys.socket_answer (Sys.mkAnswers (inl 3) (Some 13%nat)) = inl fd ->
            fd ∉ ({[0; 1; 2]} : gset Z)) as Hfresh
    by (intros fd [= <-] Hin; rewrite !elem_of_union, !elem_of_singleton in Hin; lia).
  destruct (Connect_no_leak _ _ _ _ _ _ _ Hpos Hfresh E) as (Heq & _ & _).
  rewrite E, Heq. reflexivity.
Defined.

(** X21. When [Connect] succeeds, exactly the one descriptor that [socket]
    gave is new in the table and the connection holds it; the address has
    the netlink family and the mode as its group mask, 1 for kernel events
    and 2 for udev events. [Close] then gives the table back as it was
    before [Connect], and a second [Close] is the error EBADF. *)
Theorem Connect_then_Close (c : Sys.NetlinkConn) (mode : Z) (a : Sys.answers)
    (open : gset Z) (c' : Sys.NetlinkConn) (open' : gset Z) :
  (forall fd, Sys.socket_answer a = inl fd -> fd ∉ open) ->
  Sys.Connect c mode a open = (c', None, open') ->
  Sys.socket_answer a = inl (Sys.Fd c') /\
  open' = {[Sys.Fd c']} ∪ open /\
  Sys.Addr c' = Sys.mkSockaddrNetlink Sys.AF_NETLINK 0 (uint32 mode) /\
  uint32 Sys.KernelEvent = 1 /\ uint32 Sys.UdevEvent = 2 /\
  Sys.Close c' open' = (None, open) /\
  Sys.Close c' open = (Some (Errno Sys.EBADF), open).
Proof.
  intros Hfresh. unfold Sys.Connect, Sys.sys_Socket.
  destruct (Sys.socket_answer a) as [fd|code] eqn:Es; [|discriminate].
  specialize (Hfresh fd eq_refl). unfold Sys.sys_Bind.
  destruct (Sys.bind_answer a) as [code|].
  { unfold Sys.sys_Close.
    rewrite decide_True by (apply elem_of_union_l, elem_of_singleton; reflexivity).
    discriminate. }
  intros [= <- <-]. simpl.
  split; [reflexivity|]. split; [reflexivity|]. split; [reflexivity|].
  split; [reflexivity|]. split; [reflexivity|].
  unfold Sys.Close, Sys.sys_Close. simpl. split.
  - rewrite decide_True by (apply elem_of_union_l, elem_of_singleton; reflexivity).
    rewrite close_new_descriptor by exact Hfresh. reflexivity.
  - rewrite decide_False by exact Hfresh. reflexivity.
Qed.

Lemma Connect_then_Close_witness :
  Sys.Close (Sys.mkNetlinkConn 3 (Sys.mkSockaddrNetlink Sys.AF_NETLINK 0 2))
    ({[3]} ∪ {[0; 1; 2]})
  = (None, {[0; 1; 2]}).
Proof.
  assert (forall fd : Z, Sys.socket_answer (Sys.mkAnswers (inl 3) None) = inl fd ->
            fd ∉ ({[0; 1; 2]} : gset Z)) as Hfresh
    by (intros fd [= <-] Hin; rewrite !elem_of_union, !elem_of_singleton in Hin; lia).
  destruct (Connect_then_Close (Sys.mkNetlinkConn 0 (Sys.mkSockaddrNetlink 0 0 0))
              Sys.UdevEvent (Sys.mkAnswers (inl 3) None) {[0; 1; 2]}
              (Sys.mkNetlinkConn 3 (Sys.mkSockaddrNetlink Sys.AF_NETLINK 0 2))
              ({[3]} ∪ {[0; 1; 2]}) Hfresh eq_refl) as (_ & _ & _ & _ & _ & H & _).
  exact H.
Defined.

(** ** Case of the action in the enriched format *)

(** X22. The enriched parser folds the case of the action and leaves the
    environment alone: when the value of [ACTION] is an ASCII string that
    is one of the eight actions once lower-cased, in whatever case it is
    written, the parse succeeds, the action of the event is the lower-cased
    string, and the environment still holds the value as it was written. *)
Theorem udev_action_case_folded (P : Platform) (raw : bytes) (mids : list bytes)
    (last : bytes) (kvs : list (bytes * bytes)) (written : string) :
  platform_ok P ->
  (40 < length raw)%nat -> take 8 raw = libudev_prefix ->
  spec_be (spec_bytes_at raw 8 4) = libudevMagic ->
  spec_native (nativeOrder P) (spec_bytes_at raw 16 4) < uint32 (len raw) ->
  Split (drop (Z.to_nat (spec_native (nativeOrder P) (spec_bytes_at raw 16 4))) raw) NUL
    = mids ++ [last] ->
  Forall2 (fun f kv => Split f "=" = [kv.1; kv.2]) mids kvs ->
  spec_env kvs !! "ACTION" = Some written ->
  is_ascii written = true -> lower_string written ∈ actions ->
  exists e, ParseUEvent P raw = Return (Some e, None) /\
    Action e = lower_string written /\ Env e !! "ACTION" = Some written.
Proof.
  intros [Hlow _] H1 H2 Hm Hoff Hs Hk Hw Hasc Hact.
  rewrite (udev_payload P raw mids last kvs H1 H2 Hm Hoff Hs Hk). cbv zeta.
  assert (map_get (spec_env kvs) "ACTION" = written) as ->
    by (unfold map_get; rewrite Hw; reflexivity).
  rewrite (Hlow written Hasc), bool_decide_eq_true_2 by exact Hact.
  eexists. split; [reflexivity|]. simpl. auto.
Qed.

Lemma udev_action_case_folded_witness :
  exists e, ParseUEvent linux_amd64
              (udev_buffer LittleEndian libudevMagic 24
                 (spec_fields [bytes_of "ACTION=Add"; bytes_of "DEVPATH=/devices/bar"]))
            = Return (Some e, None) /\
    Action e = "add" /\ Env e !! "ACTION" = Some "Add".
Proof.
  apply (udev_action_case_folded linux_amd64 _
           [bytes_of "ACTION=Add"; bytes_of "DEVPATH=/devices/bar"] []
           [(bytes_of "ACTION", bytes_of "Add");
            (bytes_of "DEVPATH", bytes_of "/devices/bar")] "Add").
  - exact linux_amd64_ok.
  - vm_compute. lia.
  - vm_compute. reflexivity.
  - vm_compute. reflexivity.
  - vm_compute. reflexivity.
  - vm_compute. reflexivity.
  - repeat constructor.
  - vm_compute. reflexivity.
  - reflexivity.
  - by_compute.
Defined.
